(** * devutil/slice: a shallow embedding of the Go package and its properties

    The development follows [slice/slice.go] and [slice/error.go]:

    - Go's [int] is a 64-bit two's complement integer, written as a [Z] with
      the wrap-around of [+], [-] and [/] spelled out;
    - a slice value is either [nil] or a non-nil header with its elements;
    - a call that can panic returns a [go_result];
    - a pointer to an element error is nil or stands for what it points
      to, and an aggregate is a slice of such pointers;
    - the step function handed to [Collect] is a tree of calls on the
      collector context, ended by a normal return, by [Continue], by [Stop]
      or by a panic of its own; the slice that [Slice()] hands out is one
      shared copy, into which the step function can store;
    - the goroutines of [ForEachChunk] are a small-step machine driven by a
      schedule. *)

From Stdlib Require Import ZArith List Lia Bool Permutation.
From Equations Require Import Equations.
Import ListNotations.

Set Implicit Arguments.
Open Scope Z_scope.

(** ** Go integers *)

Module GoInt.

Definition max_int : Z := 9223372036854775807.
Definition min_int : Z := -9223372036854775808.

(** Two's complement wrap-around of a mathematical integer into [int]. *)
Definition wrap (z : Z) : Z := (z + 2 ^ 63) mod 2 ^ 64 - 2 ^ 63.

Definition add (a b : Z) : Z := wrap (a + b).
Definition sub (a b : Z) : Z := wrap (a - b).
(** Go's [/] truncates toward zero. *)
Definition quot (a b : Z) : Z := wrap (Z.quot a b).

Definition in_range (z : Z) : Prop := min_int <= z <= max_int.

End GoInt.

(** ** Slices and panics *)

Inductive slice (A : Type) : Type :=
| Nil                      (* the nil slice *)
| Slice (items : list A).  (* a non-nil slice and its elements *)
Arguments Nil {A}.

Definition elems {A} (s : slice A) : list A :=
  match s with Nil => [] | Slice l => l end.

Definition llen {A} (l : list A) : Z := Z.of_nat (length l).

(** [len(s)]; the length of a nil slice is 0. *)
Definition len {A} (s : slice A) : Z := llen (elems s).

(** [append(s, v)]: the result is never nil. *)
Definition append {A} (s : slice A) (v : A) : slice A := Slice (elems s ++ [v]).

Inductive runtime_error : Type :=
| MakesliceCapOutOfRange   (* make([]T, 0, n) with n < 0 *)
| IndexOutOfRange          (* s[i] outside 0 <= i < len(s) *)
| NilFuncCall              (* call of a nil func value *)
| NegativeWaitGroup        (* wg.Done() on a counter that is 0 *)
| NilDereference           (* p.f on a nil pointer p *)
| UncomparableType.        (* a == b on values that cannot be compared *)

Inductive go_result (R A : Type) : Type :=
| Ok (a : A)
| Panic (r : R).
Arguments Ok {R A} a.
Arguments Panic {R A} r.

Definition bind {R A B} (m : go_result R A) (k : A -> go_result R B) : go_result R B :=
  match m with Ok a => k a | Panic r => Panic r end.

Notation "x <- m ;; k" := (bind m (fun x => k))
  (at level 61, m at next level, right associativity).

(** [l[i]] *)
Definition index {A} (l : list A) (i : Z) : go_result runtime_error A :=
  if (i <? 0) || (llen l <=? i) then Panic IndexOutOfRange
  else match nth_error l (Z.to_nat i) with
       | Some x => Ok x
       | None => Panic IndexOutOfRange
       end.

(** [l[j] = x] *)
Definition store_at {A} (l : list A) (j : Z) (x : A) : go_result runtime_error (list A) :=
  if (j <? 0) || (llen l <=? j) then Panic IndexOutOfRange
  else Ok (firstn (Z.to_nat j) l ++ x :: skipn (Z.to_nat j + 1) l).

(** [make([]T, 0, cap)] *)
Definition make_cap {A} (cap : Z) : go_result runtime_error (slice A) :=
  if cap <? 0 then Panic MakesliceCapOutOfRange else Ok (Slice []).

(** ** error.go *)

Section Errors.

Variable In : Type.
(** The non-nil error values a caller can supply. *)
Variable E : Type.

(** A Go [error]: [None] is nil. *)
Definition error : Type := option E.

Record ElemError : Type := mkElemError {
  Index : Z;
  Value : In;
  Err : error
}.

(** A [*ElemError]: [None] is the nil pointer. An element error is never
    written to after it is made, so a pointer that is not nil is modelled
    by what it points to. *)
Definition ElemErrorPtr : Type := option ElemError.

(** [&ElemError[In]{Index: i, Value: v, Err: err}] *)
Definition newElemError (i : Z) (v : In) (err : error) : ElemErrorPtr :=
  Some (mkElemError i v err).

(** [SliceError] is a slice of pointers to element errors. *)
Definition SliceError : Type := list ElemErrorPtr.

(** [p.Err], which dereferences [p]. *)
Definition Err_of (p : ElemErrorPtr) : go_result runtime_error error :=
  match p with
  | Some x => Ok (Err x)
  | None => Panic NilDereference
  end.

(** The non-nil members of a list of errors, in order. *)
Definition non_nil (errs : list error) : list E :=
  flat_map (fun e => match e with Some x => [x] | None => [] end) errs.







(** [At] returns an [error]: [None] is the nil interface, [Some p] the
    interface that holds the pointer [p], which may be the nil pointer. *)
Definition At (e : SliceError) (i : Z) : go_result runtime_error (option ElemErrorPtr) :=
  if llen e =? 0 then Ok None
  else if (i <? 0) || (i >=? llen e) then Ok None
  else p <- index e i ;; Ok (Some p).

Definition OriginAt (e : SliceError) (i : Z) : go_result runtime_error error :=
  if llen e =? 0 then Ok None
  else if (i <? 0) || (i >=? llen e) then Ok None
  else p <- index e i ;; Err_of p.

End Errors.

Arguments mkElemError {In E}.
Arguments newElemError {In E}.

(** ** Chunk and Flatten *)

Section Chunks.

Variable In : Type.

(** The loop [for size < len(input) { input, chunks = input[size:],
    append(chunks, input[0:size:size]) }] followed by
    [chunks = append(chunks, input)]. The size is at least 1 here. *)
Equations? chunk_loop (size : positive) (input : list In) (chunks : list (slice In))
  : list (slice In) by wf (length input) lt :=
  chunk_loop size input chunks with Z_lt_dec (Z.pos size) (llen input) := {
    | left _ := chunk_loop size (skipn (Pos.to_nat size) input)
                  (chunks ++ [Slice (firstn (Pos.to_nat size) input)]);
    | right _ := chunks ++ [Slice input] }.
Proof.
  unfold llen in *. rewrite length_skipn. lia.
Qed.

Definition Chunk (input : slice In) (size : Z) : go_result runtime_error (slice (slice In)) :=
  match input with
  | Nil => Ok Nil
  | Slice l =>
      if llen l =? 0 then Ok (Slice [])
      else
        let size := if size <=? 0 then 1 else size in
        chunks <- make_cap (GoInt.quot (GoInt.sub (GoInt.add (llen l) size) 1) size) ;;
        Ok (Slice (chunk_loop (Z.to_pos size) l (elems chunks)))
  end.

Definition Flatten (input : slice (slice In)) : go_result runtime_error (slice In) :=
  match input with
  | Nil => Ok Nil
  | Slice ss =>
      if llen ss =? 0 then Ok (Slice [])
      else
        let totalLen := fold_left (fun n s => GoInt.add n (len s)) ss 0 in
        result <- make_cap totalLen ;;
        Ok (Slice (fold_left (fun r s => r ++ elems s) ss (elems result)))
  end.

End Chunks.

(** ** Collect *)

Inductive controlSignal : Type :=
| sigExclude
| sigStop
| sigContinue.

(** What [recover()] can yield: one of the package's control signals, a
    run-time error, or a value [P] the caller's code panicked with. *)
Inductive panic_value (P : Type) : Type :=
| PSignal (s : controlSignal)
| PRuntime (e : runtime_error)
| PUser (p : P).
Arguments PSignal {P} s.
Arguments PRuntime {P} e.

Section Collector.

Variables In Out : Type.
Variable E : Type.   (* non-nil errors *)
Variable P : Type.   (* values the step function panics with *)
Variable S : Type.   (* variables captured by the step function's closure *)
(** Go's zero value of [Out], the initial [currentValue]. *)
Variable zero : Out.

(** One invocation of the step function [handler(c)], as the calls it
    makes on the context [c]. [Continue], [Stop] and [panic] do not return
    to the step function, so they end the invocation. Each end carries the
    closure's variables as the invocation leaves them. [Slice()] hands out
    the same slice at every call, so the step function can store into it:
    [CallSliceStore j x] is [c.Slice()[j] = x], which is also what a store
    through a slice kept from an earlier call comes to. *)
Inductive step_fn : Type :=
| Return (s : S)
| CallSlice (k : slice In -> step_fn)
| CallSliceStore (j : Z) (x : In) (k : step_fn)
| CallCurrentElem (k : Z -> In -> step_fn)
| CallSetValue (v : Out) (k : step_fn)
| CallCurrentResult (k : slice Out -> step_fn)
| CallContinue (s : S) (errs : list (error E))
| CallStop (s : S) (errs : list (error E))
| DoPanic (s : S) (r : panic_value P).

Record collectorContextImpl : Type := mkContext {
  copied : slice In;
  continued : bool;
  stopped : bool;
  errOnStopped : list (ElemErrorPtr In E);
  errOnContinued : list (ElemErrorPtr In E);
  currentIndex : Z;
  currentValue : Out;
  hasValue : bool
}.

Definition set_copied v c :=
  mkContext v (continued c) (stopped c) (errOnStopped c) (errOnContinued c)
    (currentIndex c) (currentValue c) (hasValue c).
Definition set_continued v c :=
  mkContext (copied c) v (stopped c) (errOnStopped c) (errOnContinued c)
    (currentIndex c) (currentValue c) (hasValue c).
Definition set_stopped v c :=
  mkContext (copied c) (continued c) v (errOnStopped c) (errOnContinued c)
    (currentIndex c) (currentValue c) (hasValue c).
Definition set_errOnStopped v c :=
  mkContext (copied c) (continued c) (stopped c) v (errOnContinued c)
    (currentIndex c) (currentValue c) (hasValue c).
Definition set_errOnContinued v c :=
  mkContext (copied c) (continued c) (stopped c) (errOnStopped c) v
    (currentIndex c) (currentValue c) (hasValue c).
Definition set_currentIndex v c :=
  mkContext (copied c) (continued c) (stopped c) (errOnStopped c) (errOnContinued c)
    v (currentValue c) (hasValue c).
Definition set_hasValue v c :=
  mkContext (copied c) (continued c) (stopped c) (errOnStopped c) (errOnContinued c)
    (currentIndex c) (currentValue c) v.

(** [c.sliceGetter]: the input is copied on the first call only, and every
    call returns this one copy, [c.copied], with whatever has been stored
    into it since. *)
Definition sliceGetter (input : list In) (c : collectorContextImpl) : collectorContextImpl :=
  match copied c with
  | Nil => set_copied (Slice input) c
  | Slice _ => c
  end.

(** [c.elemGetter] *)
Definition elemGetter (input : list In) (i : Z) : go_result (panic_value P) In :=
  match index input i with
  | Ok v => Ok v
  | Panic e => Panic (PRuntime e)
  end.

(** [c.resultGetter] *)
Definition resultGetter (result : slice Out) : slice Out :=
  if len result =? 0 then Nil else Slice (elems result).

Definition SetValue (value : Out) (c : collectorContextImpl) : collectorContextImpl :=
  mkContext (copied c) (continued c) (stopped c) (errOnStopped c) (errOnContinued c)
    (currentIndex c) value true.

(** The loop shared by [Continue] and [Stop]: every non-nil error is
    wrapped with the current index and element and appended. *)
Fixpoint wrap_errs (input : list In) (i : Z) (errs : list (error E))
    (acc : list (ElemErrorPtr In E)) : go_result (panic_value P) (list (ElemErrorPtr In E)) :=
  match errs with
  | [] => Ok acc
  | None :: rest => wrap_errs input i rest acc
  | Some e :: rest =>
      v <- elemGetter input i ;;
      wrap_errs input i rest (acc ++ [newElemError i v (Some e)])
  end.

(** The state in which an invocation leaves the context, the closure's
    variables, and the panic that is unwinding, if any. *)
Record left_in : Type := mkLeft {
  left_ctx : collectorContextImpl;
  left_closure : S;
  left_panic : option (panic_value P)
}.

(** [c.Continue(errs...)] and [c.Stop(errs...)]: both end in a panic. *)
Definition Continue (input : list In) (errs : list (error E)) (s : S)
    (c : collectorContextImpl) : left_in :=
  match wrap_errs input (currentIndex c) errs (errOnContinued c) with
  | Ok l => mkLeft (set_continued true (set_errOnContinued l c)) s (Some (PSignal sigContinue))
  | Panic r => mkLeft c s (Some r)
  end.

Definition Stop (input : list In) (errs : list (error E)) (s : S)
    (c : collectorContextImpl) : left_in :=
  match wrap_errs input (currentIndex c) errs (errOnStopped c) with
  | Ok l => mkLeft (set_stopped true (set_errOnStopped l c)) s (Some (PSignal sigStop))
  | Panic r => mkLeft c s (Some r)
  end.

(** [handler(c)]: [s0] is the closure at the start of the invocation. *)
Fixpoint call (input : list In) (result : slice Out) (s0 : S) (p : step_fn)
    (c : collectorContextImpl) : left_in :=
  match p with
  | Return s => mkLeft c s None
  | CallSlice k =>
      let c' := sliceGetter input c in
      call input result s0 (k (copied c')) c'
  | CallSliceStore j x k =>
      let c' := sliceGetter input c in
      match store_at (elems (copied c')) j x with
      | Ok l => call input result s0 k (set_copied (Slice l) c')
      | Panic r => mkLeft c' s0 (Some (PRuntime r))
      end
  | CallCurrentElem k =>
      match elemGetter input (currentIndex c) with
      | Ok v => call input result s0 (k (currentIndex c) v) c
      | Panic r => mkLeft c s0 (Some r)
      end
  | CallSetValue v k => call input result s0 k (SetValue v c)
  | CallCurrentResult k => call input result s0 (k (resultGetter result)) c
  | CallContinue s errs => Continue input errs s c
  | CallStop s errs => Stop input errs s c
  | DoPanic s r => mkLeft c s (Some r)
  end.

(** The deferred function around [handler(c)]: the two control signals
    are recovered, everything else is panicked again. *)
Definition recovered (l : left_in) : left_in :=
  match left_panic l with
  | Some (PSignal sigStop) => mkLeft (set_stopped true (left_ctx l)) (left_closure l) None
  | Some (PSignal sigContinue) => mkLeft (set_continued true (left_ctx l)) (left_closure l) None
  | _ => l
  end.

(** How the step function ended an invocation. *)
Inductive ending : Type :=
| EReturn
| EContinue (errs : list (error E))
| EStop (errs : list (error E))
| EPanic (r : panic_value P).

(** Ghost record of one invocation: the index and element it was made
    for, the value the step function had set when it ended, and how it
    ended. It is not part of the Go program. *)
Record visit : Type := mkVisit {
  v_index : Z;
  v_elem : In;
  v_set : option Out;
  v_end : ending
}.

(** The end the step function reaches when it runs against [c]. *)
Fixpoint ending_of (input : list In) (result : slice Out) (p : step_fn)
    (c : collectorContextImpl) : ending :=
  match p with
  | Return _ => EReturn
  | CallSlice k =>
      let c' := sliceGetter input c in
      ending_of input result (k (copied c')) c'
  | CallSliceStore j x k =>
      let c' := sliceGetter input c in
      match store_at (elems (copied c')) j x with
      | Ok l => ending_of input result k (set_copied (Slice l) c')
      | Panic r => EPanic (PRuntime r)
      end
  | CallCurrentElem k =>
      match elemGetter input (currentIndex c) with
      | Ok v => ending_of input result (k (currentIndex c) v) c
      | Panic r => EPanic r
      end
  | CallSetValue v k => ending_of input result k (SetValue v c)
  | CallCurrentResult k => ending_of input result (k (resultGetter result)) c
  | CallContinue _ errs => EContinue errs
  | CallStop _ errs => EStop errs
  | DoPanic _ r => EPanic r
  end.

Definition value_set (c : collectorContextImpl) : option Out :=
  if hasValue c then Some (currentValue c) else None.

(** [if len(errs) == 0 { return result, nil }; return result, errs] *)
Definition as_error (errs : SliceError In E) : option (SliceError In E) :=
  if llen errs =? 0 then None else Some errs.

Record collected : Type := mkCollected {
  returned : go_result (panic_value P) (slice Out * option (SliceError In E));
  visits : list visit
}.

(** The body of [for i := range input]; [rest] holds the elements from
    index [i] on. *)
Fixpoint collect_loop (handler : S -> step_fn) (input rest : list In) (i : Z)
    (c : collectorContextImpl) (s : S) (result : slice Out)
    (errs : SliceError In E) (seen : list visit) : collected :=
  match rest with
  | [] =>
      mkCollected (Ok (result, as_error errs)) seen
  | x :: rest' =>
      let c := set_stopped false c in
      let c := set_continued false c in
      let c := set_errOnStopped [] c in
      let c := set_errOnContinued [] c in
      let c := set_hasValue false c in
      let c := set_currentIndex i c in
      let raw := call input result s (handler s) c in
      let seen := seen ++ [mkVisit i x (value_set (left_ctx raw))
                             (ending_of input result (handler s) c)] in
      let l := recovered raw in
      let c := left_ctx l in
      match left_panic l with
      | Some r => mkCollected (Panic r) seen
      | None =>
          if stopped c then
            let errs := if 0 <? llen (errOnStopped c) then errs ++ errOnStopped c else errs in
            mkCollected (Ok (result, as_error errs)) seen
          else if continued c then
            let errs := if 0 <? llen (errOnContinued c) then errs ++ errOnContinued c else errs in
            collect_loop handler input rest' (i + 1) c (left_closure l) result errs seen
          else
            let result := if hasValue c then append result (currentValue c) else result in
            collect_loop handler input rest' (i + 1) c (left_closure l) result errs seen
      end
  end.

Definition Collect (input : slice In) (handler : option (S -> step_fn)) (s : S) : collected :=
  match len input =? 0, handler with
  | false, Some h =>
      let c := mkContext Nil false false [] [] 0 zero false in
      collect_loop h (elems input) (elems input) 0 c s Nil [] []
  | _, _ => mkCollected (Ok (Nil, None)) []
  end.

End Collector.

Arguments Return {In Out E P S} s.
Arguments CallContinue {In Out E P S} s errs.
Arguments CallStop {In Out E P S} s errs.
Arguments DoPanic {In Out E P S} s r.
Arguments CallSetValue {In Out E P S} v k.
Arguments CallCurrentElem {In Out E P S} k.
Arguments CallSlice {In Out E P S} k.
Arguments CallSliceStore {In Out E P S} j x k.
Arguments CallCurrentResult {In Out E P S} k.
Arguments EReturn {E P}.
Arguments EContinue {E P} errs.
Arguments EStop {E P} errs.
Arguments EPanic {E P} r.

(** ** Filter *)

Section Filtering.

Variable In : Type.
Variable zero : In.

(** The closure handed to [Collect]: it captures nothing of its own, sets
    no error and never panics. [c.Continue()] does not return, so
    [c.SetValue(val)] runs only when the predicate holds. *)
Definition filter_step (predicate : In -> bool) (_ : unit)
  : step_fn In In Empty_set Empty_set unit :=
  CallCurrentElem (fun _ val =>
    if negb (predicate val) then CallContinue tt []
    else CallSetValue val (Return tt)).

Definition Filter (input : slice In) (predicate : option (In -> bool))
  : go_result (panic_value Empty_set) (slice In) :=
  match len input =? 0, predicate with
  | false, Some p =>
      res <- returned (Collect zero input (Some (filter_step p)) tt) ;;
      Ok (fst res)
  | _, _ => Ok input
  end.

End Filtering.

(** ** ForEachChunk *)

Section ChunkProcessor.

Variables In E : Type.
Variable S : Type.   (* state shared by the handler's invocations *)

(** [handler(chunk)] reads and updates the state it shares with the other
    invocations and returns an error or nil. *)
Definition handler_fn : Type := S -> slice In -> S * error E.

Definition call_handler (handler : option handler_fn) (s : S) (chunk : slice In)
  : go_result runtime_error (S * error E) :=
  match handler with
  | None => Panic NilFuncCall
  | Some f => Ok (f s chunk)
  end.

(** A goroutine started by the loop, by what it has left to do. *)
Inductive goroutine : Type :=
| Started (chunk : slice In)     (* handler(c) has not returned yet *)
| HandlerDone (err : error E)    (* [if err != nil { errChan <- err }] is next *)
| Releasing                      (* the deferred [<-sem] is next *)
| Finishing.                     (* the deferred [wg.Done()] is next *)

(** What a call of [ForEachChunk] comes to. [calls] and [running] are ghost
    fields: the handler invocations that returned, in the order they
    returned, and the goroutines still alive at the end. *)
Record processed : Type := mkProcessed {
  outcome : go_result runtime_error (error E);
  closure : S;
  calls : list (slice In * error E);
  running : list goroutine
}.

(** [concurrency <= 1]: the loop returns at the first error. *)
Fixpoint sequential (handler : option handler_fn) (chunks : list (slice In)) (s : S)
    (done : list (slice In * error E)) : processed :=
  match chunks with
  | [] => mkProcessed (Ok None) s done []
  | chunk :: rest =>
      match call_handler handler s chunk with
      | Panic r => mkProcessed (Panic r) s done []
      | Ok (s', Some e) => mkProcessed (Ok (Some e)) s' (done ++ [(chunk, Some e)]) []
      | Ok (s', None) => sequential handler rest s' (done ++ [(chunk, None)])
      end
  end.

(** [concurrency > 1]: the main goroutine and the ones it starts. *)
Record machine : Type := mkMachine {
  pending : list (slice In);   (* chunks the loop has not reached *)
  sem : Z;                     (* tokens held in [sem] *)
  wg : Z;                      (* the WaitGroup counter *)
  goroutines : list goroutine;
  errChan : list E;
  shared : S;
  returned_calls : list (slice In * error E)
}.

Inductive choice : Type :=
| Main               (* the loop's [sem <- struct{}{}; wg.Add(1); go ...] *)
| Go (g : nat).      (* the next action of the g-th live goroutine *)

Definition replace_nth {A} (g : nat) (x : A) (l : list A) : list A :=
  firstn g l ++ x :: skipn (Datatypes.S g) l.
Definition remove_nth {A} (g : nat) (l : list A) : list A :=
  firstn g l ++ skipn (Datatypes.S g) l.

(** One action. [None]: the action is blocked (or there is no such
    goroutine); [Some (Panic _)]: the program crashes. *)
Definition step (handler : option handler_fn) (concurrency cap : Z)
    (ch : choice) (m : machine) : option (go_result runtime_error machine) :=
  match ch with
  | Main =>
      match pending m with
      | chunk :: rest =>
          if sem m <? concurrency then
            Some (Ok (mkMachine rest (sem m + 1) (wg m + 1)
                        (goroutines m ++ [Started chunk])
                        (errChan m) (shared m) (returned_calls m)))
          else None
      | [] => None
      end
  | Go g =>
      match nth_error (goroutines m) g with
      | None => None
      | Some (Started chunk) =>
          match call_handler handler (shared m) chunk with
          | Panic r => Some (Panic r)
          | Ok (s', err) =>
              Some (Ok (mkMachine (pending m) (sem m) (wg m)
                          (replace_nth g (HandlerDone err) (goroutines m))
                          (errChan m) s' (returned_calls m ++ [(chunk, err)])))
          end
      | Some (HandlerDone None) =>
          Some (Ok (mkMachine (pending m) (sem m) (wg m)
                      (replace_nth g Releasing (goroutines m))
                      (errChan m) (shared m) (returned_calls m)))
      | Some (HandlerDone (Some e)) =>
          if llen (errChan m) <? cap then
            Some (Ok (mkMachine (pending m) (sem m) (wg m)
                        (replace_nth g Releasing (goroutines m))
                        (errChan m ++ [e]) (shared m) (returned_calls m)))
          else None
      | Some Releasing =>
          if 0 <? sem m then
            Some (Ok (mkMachine (pending m) (sem m - 1) (wg m)
                        (replace_nth g Finishing (goroutines m))
                        (errChan m) (shared m) (returned_calls m)))
          else None
      | Some Finishing =>
          if 0 <? wg m then
            Some (Ok (mkMachine (pending m) (sem m) (wg m - 1)
                        (remove_nth g (goroutines m))
                        (errChan m) (shared m) (returned_calls m)))
          else Some (Panic NegativeWaitGroup)
      end
  end.

(** [wg.Wait(); close(errChan); if len(errChan) > 0 { return <-errChan };
    return nil], once the loop is over and the counter is 0. *)
Definition wait_and_return (m : machine) : option processed :=
  match pending m with
  | [] =>
      if wg m =? 0 then
        Some (mkProcessed (Ok (hd_error (errChan m))) (shared m)
                (returned_calls m) (goroutines m))
      else None
  | _ :: _ => None
  end.

(** The run that follows a schedule. [None]: the schedule is not one of a
    complete run of the program. *)
Fixpoint concurrent (handler : option handler_fn) (concurrency cap : Z)
    (sched : list choice) (m : machine) : option processed :=
  match sched with
  | [] => wait_and_return m
  | ch :: rest =>
      match step handler concurrency cap ch m with
      | None => None
      | Some (Panic r) =>
          Some (mkProcessed (Panic r) (shared m) (returned_calls m) (goroutines m))
      | Some (Ok m') => concurrent handler concurrency cap rest m'
      end
  end.

Definition ForEachChunk (sched : list choice) (input : slice In)
    (chunkSize concurrency : Z) (handler : option handler_fn) (s : S)
  : option processed :=
  if len input =? 0 then Some (mkProcessed (Ok None) s [] [])
  else
    match Chunk input chunkSize with
    | Panic r => Some (mkProcessed (Panic r) s [] [])
    | Ok chunks =>
        if concurrency <=? 1 then Some (sequential handler (elems chunks) s [])
        else concurrent handler concurrency (len chunks) sched
               (mkMachine (elems chunks) 0 0 [] [] s [])
    end.

End ChunkProcessor.

Arguments Started {In E} chunk.
Arguments HandlerDone {In E} err.
Arguments Releasing {In E}.
Arguments Finishing {In E}.

(** ** Reading the results of Chunk *)

Section ChunkVocabulary.

Variable In : Type.

(** A chunk of exactly [size] elements. *)
Definition full_chunk (size : Z) (c : slice In) : Prop :=
  exists l, c = Slice l /\ llen l = size.

(** The size [Chunk] works with. *)
Definition effective_size (size : Z) : Z := if size <=? 0 then 1 else size.

End ChunkVocabulary.

(** ** Reading one invocation of the step function *)

Section InvocationVocabulary.

Variables In Out E P S : Type.

(** The context as the loop hands it to the step function at index [i],
    and as the calls that return to the step function keep it. *)
Definition clean (i : Z) (c : collectorContextImpl In Out E) : Prop :=
  continued c = false /\ stopped c = false /\
  errOnStopped c = [] /\ errOnContinued c = [] /\ currentIndex c = i.

(** What the deferred recover finds after one invocation, by the way the
    step function ended it. *)
Definition left_as (i : Z) (x : In) (raw : left_in In Out E P S) (e : ending E P) : Prop :=
  let l := recovered raw in
  let c := left_ctx l in
  value_set c = value_set (left_ctx raw) /\
  left_closure l = left_closure raw /\
  match e with
  | EReturn =>
      left_panic l = None /\ stopped c = false /\ continued c = false
  | EContinue errs =>
      left_panic l = None /\ stopped c = false /\ continued c = true /\
      errOnContinued c = map (fun e => newElemError i x (Some e)) (non_nil errs)
  | EStop errs =>
      left_panic l = None /\ stopped c = true /\
      errOnStopped c = map (fun e => newElemError i x (Some e)) (non_nil errs)
  | EPanic (PSignal sigStop) =>
      left_panic l = None /\ stopped c = true /\ errOnStopped c = []
  | EPanic (PSignal sigContinue) =>
      left_panic l = None /\ stopped c = false /\ continued c = true /\
      errOnContinued c = []
  | EPanic r => left_panic l = Some r
  end.

End InvocationVocabulary.

(** ** Reading the ghost records of Collect *)

Section CollectorVocabulary.

Variables In Out E P : Type.

(** The value an invocation adds to the output: the one it set, when it
    returned normally. *)
Definition kept (v : visit In Out E P) : list Out :=
  match v_end v, v_set v with
  | EReturn, Some x => [x]
  | _, _ => []
  end.

(** The error arguments of the [Continue] or [Stop] call that ended an
    invocation. *)
Definition supplied (v : visit In Out E P) : list (error E) :=
  match v_end v with
  | EContinue errs => errs
  | EStop errs => errs
  | _ => []
  end.


(** The element errors an invocation contributes: one for each non-nil
    error supplied, with the index and the element of the invocation. *)
Definition wrapped (v : visit In Out E P) : list (ElemErrorPtr In E) :=
  map (fun e => newElemError (v_index v) (v_elem v) (Some e)) (non_nil (supplied v)).

(** Invocations after which the loop goes on to the next index ... *)
Definition passing (v : visit In Out E P) : Prop :=
  match v_end v with
  | EReturn => True
  | EContinue _ => True
  | EPanic (PSignal sigContinue) => True
  | _ => False
  end.

(** ... and those after which it breaks. *)
Definition halting (v : visit In Out E P) : Prop :=
  match v_end v with
  | EStop _ => True
  | EPanic (PSignal sigStop) => True
  | _ => False
  end.

(** [result] after the values [l] were appended one by one. *)
Definition extend (result : slice Out) (l : list Out) : slice Out :=
  match l with
  | [] => result
  | _ :: _ => Slice (elems result ++ l)
  end.

(** The loop of [Collect] told by its invocations: from index [i] with
    [rest] to go, the output [result] and the aggregate [errs] so far, the
    invocations [vs] are made and the call ends in [out]. *)
Inductive runs_as : Z -> list In -> slice Out -> SliceError In E ->
    list (visit In Out E P) ->
    go_result (panic_value P) (slice Out * option (SliceError In E)) -> Prop :=
| run_done i result errs :
    runs_as i [] result errs [] (Ok (result, as_error errs))
| run_pass i x rest result errs v vs out :
    v_index v = i -> v_elem v = x -> passing v ->
    runs_as (i + 1) rest (extend result (kept v)) (errs ++ wrapped v) vs out ->
    runs_as i (x :: rest) result errs (v :: vs) out
| run_halt i x rest result errs v :
    v_index v = i -> v_elem v = x -> halting v ->
    runs_as i (x :: rest) result errs [v] (Ok (result, as_error (errs ++ wrapped v)))
| run_panic i x rest result errs v r :
    v_index v = i -> v_elem v = x -> v_end v = EPanic r ->
    r <> PSignal sigStop -> r <> PSignal sigContinue ->
    runs_as i (x :: rest) result errs [v] (Panic r).

(** How many elements satisfy a predicate. *)
Fixpoint count (p : In -> bool) (l : list In) : Z :=
  match l with
  | [] => 0
  | x :: l' => (if p x then 1 else 0) + count p l'
  end.

End CollectorVocabulary.

(** ** Reading the machine of ForEachChunk *)

Section ProcessorVocabulary.

Variables In E S : Type.

(** Chunks handed to a goroutine whose handler call has not returned. *)
Definition started_chunks (gs : list (goroutine In E)) : list (slice In) :=
  flat_map (fun g => match g with Started c => [c] | _ => [] end) gs.

(** Errors returned by a handler and not yet sent to [errChan]. *)
Definition unsent (gs : list (goroutine In E)) : list E :=
  flat_map (fun g => match g with HandlerDone (Some e) => [e] | _ => [] end) gs.

(** The non-nil errors among the handler calls that returned. *)
Definition errors_in (done : list (slice In * error E)) : list E :=
  non_nil (map snd done).

Fixpoint total (f : goroutine In E -> nat) (gs : list (goroutine In E)) : nat :=
  match gs with
  | [] => 0
  | g :: gs' => f g + total f gs'
  end.

(** A goroutine holds a token of [sem] until its deferred [<-sem]. *)
Definition holds_token (g : goroutine In E) : nat :=
  match g with Finishing => 0 | _ => 1 end.

(** The actions a goroutine has left. *)
Definition actions_left (g : goroutine In E) : nat :=
  match g with
  | Started _ => 4
  | HandlerDone _ => 3
  | Releasing => 2
  | Finishing => 1
  end.

(** The actions the whole program has left before [wg.Wait()] returns. *)
Definition steps_left (m : machine In E S) : nat :=
  5 * length (pending m) + total actions_left (goroutines m).

(** What holds of the machine throughout a run on [chunks]: every chunk is
    waiting, with a goroutine, or handled; every error returned is in the
    channel or about to be sent; the counter counts the live goroutines
    and [sem] the tokens they hold. *)
Record consistent (chunks : list (slice In)) (m : machine In E S) : Prop := {
  chunks_accounted :
    Permutation chunks
      (pending m ++ started_chunks (goroutines m) ++ map fst (returned_calls m));
  errors_accounted :
    Permutation (errors_in (returned_calls m)) (errChan m ++ unsent (goroutines m));
  wg_counts : wg m = llen (goroutines m);
  sem_counts : sem m = Z.of_nat (total holds_token (goroutines m))
}.


(** The claim C1 as it is written, for one call: the handler is invoked
    on every chunk exactly once. *)
Definition every_chunk_once (sched : list choice) (input : slice In)
    (chunkSize concurrency : Z) (handler : handler_fn In E S) (s : S) : Prop :=
  forall p chunks,
    ForEachChunk sched input chunkSize concurrency (Some handler) s = Some p ->
    Chunk input chunkSize = Ok chunks ->
    Permutation (elems chunks) (map fst (calls p)).

End ProcessorVocabulary.

(** ** Step functions and handlers of the package's tests *)

Module Samples.

(** [TestCollect_ErrorSwallowing], with a nil among the errors: stop with
    an error at the value 2, keep the other values. *)
Definition stop_at_two (_ : unit) : step_fn Z Z nat nat unit :=
  CallCurrentElem (fun _ val =>
    if val =? 2 then CallStop tt [None; Some 7%nat]
    else CallSetValue val (Return tt)).

(** [TestCollect_ContinueByErr], with the value set before the skip: the
    values 2 and 4 are skipped with an error each. *)
Definition skip_two_and_four (_ : unit) : step_fn Z Z nat nat unit :=
  CallCurrentElem (fun _ val =>
    CallSetValue val
      (if val =? 2 then CallContinue tt [Some 1%nat]
       else if val =? 4 then CallContinue tt [None; Some 2%nat]
       else Return tt)).


(** A step function that panics with a value of its own at the value 2. *)
Definition panic_at_two (_ : unit) : step_fn Z Z nat nat unit :=
  CallCurrentElem (fun _ val =>
    if val =? 2 then DoPanic tt (PUser 42%nat)
    else CallSetValue val (Return tt)).






Definition is_even (x : Z) : bool := Z.even x.

(** A handler that fails on every chunk and one that fails on the chunk
    starting with 5 ([TestForEachChunk], "error handling"). Neither keeps
    state. *)
Definition fail_always (s : unit) (chunk : slice Z) : unit * error nat :=
  (s, Some 7%nat).

Definition fail_at_five (s : unit) (chunk : slice Z) : unit * error nat :=
  (s, match elems chunk with
      | x :: _ => if x =? 5 then Some 7%nat else None
      | [] => None
      end).

(** Two goroutines: both are started, the first one runs to its end, then
    the second one does. *)
Definition one_after_the_other : list choice :=
  [Main; Main; Go 0; Go 0; Go 0; Go 0; Go 0; Go 0; Go 0; Go 0].

(** Two goroutines taking turns. *)
Definition taking_turns : list choice :=
  [Main; Main; Go 1; Go 0; Go 1; Go 0; Go 1; Go 0; Go 1; Go 0].

End Samples.

(** ** Reduce, Every, Some, Map, Find and Contains *)

Section Folds.

Variables In Out : Type.

(** [Reduce]: a left fold, guarded against an empty input and a nil reducer. *)
Definition Reduce (input : slice In) (reducer : option (Out -> In -> Out)) (initial : Out)
  : Out :=
  match len input =? 0, reducer with
  | false, Some f => fold_left f (elems input) initial
  | _, _ => initial
  end.

(** The loop of [Every]: it returns false at the first element that fails. *)
Fixpoint every_loop (predicate : In -> bool) (input : list In) : bool :=
  match input with
  | [] => true
  | item :: rest => if negb (predicate item) then false else every_loop predicate rest
  end.

Definition Every (input : slice In) (predicate : option (In -> bool)) : bool :=
  match predicate with
  | None => true
  | Some p => every_loop p (elems input)
  end.

(** The loop of [Some]: it returns true at the first element that passes. *)
Fixpoint some_loop (predicate : In -> bool) (input : list In) : bool :=
  match input with
  | [] => false
  | item :: rest => if predicate item then true else some_loop predicate rest
  end.

(** Go's [Some]; the name is taken by the constructor of [option]. *)
Definition Some_ (input : slice In) (predicate : option (In -> bool)) : bool :=
  match len input =? 0, predicate with
  | false, Some p => some_loop p (elems input)
  | _, _ => false
  end.

(** [s[i] = v] *)
Definition assign {A} (l : list A) (i : Z) (v : A) : go_result runtime_error (list A) :=
  if (i <? 0) || (llen l <=? i) then Panic IndexOutOfRange
  else Ok (firstn (Z.to_nat i) l ++ v :: skipn (Datatypes.S (Z.to_nat i)) l).

(** The loop [for i, item := range input { result[i] = mapper(item) }]. *)
Fixpoint map_loop (mapper : In -> Out) (rest : list In) (i : Z) (result : list Out)
  : go_result runtime_error (list Out) :=
  match rest with
  | [] => Ok result
  | item :: rest' =>
      result' <- assign result i (mapper item) ;;
      map_loop mapper rest' (i + 1) result'
  end.

(** [Map]; [zero] is Go's zero value of [Out], which [make] fills the result
    with. *)
Definition Map (zero : Out) (input : slice In) (mapper : option (In -> Out))
  : go_result runtime_error (slice Out) :=
  match len input =? 0, mapper with
  | false, Some f =>
      result <- map_loop f (elems input) 0 (repeat zero (length (elems input))) ;;
      Ok (Slice result)
  | _, _ => Ok Nil
  end.

(** The loop of [Find]: the first element that passes, if any. *)
Fixpoint find_loop (predicate : In -> bool) (input : list In) : option In :=
  match input with
  | [] => None
  | item :: rest => if predicate item then Some item else find_loop predicate rest
  end.

(** [Find]; [zero] is Go's zero value of [In]. *)
Definition Find (zero : In) (input : slice In) (predicate : option (In -> bool)) : In * bool :=
  match len input =? 0, predicate with
  | false, Some p =>
      match find_loop p (elems input) with
      | Some item => (item, true)
      | None => (zero, false)
      end
  | _, _ => (zero, false)
  end.

(** The loop of [Contains]; [eqb] is Go's [==] on the comparable type [In]. *)
Fixpoint contains_loop (eqb : In -> In -> bool) (input : list In) (target : In) : bool :=
  match input with
  | [] => false
  | item :: rest => if eqb item target then true else contains_loop eqb rest target
  end.

Definition Contains (eqb : In -> In -> bool) (input : slice In) (target : In) : bool :=
  if len input =? 0 then false else contains_loop eqb (elems input) target.

End Folds.

(** ** Collect without the context object *)

Section Replay.

Variables In Out E P S : Type.

(** The end an invocation reaches when the calls on the context are
    answered with the shared copy [whole] for [Slice()], [(i, x)] for
    [CurrentElem()] and [sofar] for [CurrentResult()], together with the
    last value given to [SetValue], if any, and the shared copy as the
    stores of the invocation leave it. A store outside the copy ends the
    invocation with the run-time panic, the closure being as at its
    start, [s0]. *)
Fixpoint resolve (s0 : S) (whole : list In) (i : Z) (x : In) (sofar : slice Out)
    (p : step_fn In Out E P S) (set : option Out)
  : step_fn In Out E P S * option Out * list In :=
  match p with
  | CallSlice k => resolve s0 whole i x sofar (k (Slice whole)) set
  | CallSliceStore j y k =>
      match store_at whole j y with
      | Ok whole' => resolve s0 whole' i x sofar k set
      | Panic r => (DoPanic s0 (PRuntime r), set, whole)
      end
  | CallCurrentElem k => resolve s0 whole i x sofar (k i x) set
  | CallSetValue v k => resolve s0 whole i x sofar k (Some v)
  | CallCurrentResult k => resolve s0 whole i x sofar (k sofar) set
  | _ => (p, set, whole)
  end.

Definition seen_first (v : visit In Out E P) (r : collected In Out E P) : collected In Out E P :=
  mkCollected (returned r) (v :: visits r).

(** The loop of [Collect] written with an explicit decision per element
    (keep, skip, halt or fail) instead of flags on a context and signals
    caught by a deferred recover. [whole] is the copy that [Slice()] hands
    out, the same slice at every call: it starts as the input and keeps
    what the step function stores in it, across invocations. The element
    of an invocation and the values in the element errors are read from
    the input itself. *)
Fixpoint replay (handler : S -> step_fn In Out E P S) (rest : list In) (i : Z)
    (s : S) (whole : list In) (result : slice Out) (errs : SliceError In E)
  : collected In Out E P :=
  match rest with
  | [] => mkCollected (Ok (result, as_error errs)) []
  | x :: rest' =>
      let '(last, set, whole') :=
        resolve s whole i x (resultGetter result) (handler s) None in
      let with_elem es := map (fun e => newElemError i x (Some e)) (non_nil es) in
      match last with
      | Return s' =>
          seen_first (mkVisit i x set EReturn)
            (replay handler rest' (i + 1) s' whole'
               (match set with Some v => append result v | None => result end) errs)
      | CallContinue s' es =>
          seen_first (mkVisit i x set (EContinue es))
            (replay handler rest' (i + 1) s' whole' result (errs ++ with_elem es))
      | CallStop s' es =>
          mkCollected (Ok (result, as_error (errs ++ with_elem es)))
            [mkVisit i x set (EStop es)]
      | DoPanic s' (PSignal sigContinue) =>
          seen_first (mkVisit i x set (EPanic (PSignal sigContinue)))
            (replay handler rest' (i + 1) s' whole' result errs)
      | DoPanic s' (PSignal sigStop) =>
          mkCollected (Ok (result, as_error errs))
            [mkVisit i x set (EPanic (PSignal sigStop))]
      | DoPanic s' r =>
          mkCollected (Panic r) [mkVisit i x set (EPanic r)]
      | _ => mkCollected (Ok (result, as_error errs)) []
      end
  end.

(** The copy of the input kept in the context: not made yet, the shared
    copy being the input, or the shared copy. *)
Definition copy_of (input whole : list In) (c : collectorContextImpl In Out E) : Prop :=
  (copied c = Nil /\ whole = input) \/ copied c = Slice whole.

(** A step function that keeps the image of every element
    ([TestCollect_TypeTransformation]). *)
Definition transform_step (f : In -> Out) (_ : unit) : step_fn In Out E P unit :=
  CallCurrentElem (fun _ val => CallSetValue (f val) (Return tt)).

End Replay.

Arguments transform_step {In Out E P} f _.

(** ** States of ForEachChunk during a run *)

Section Following.

Variables In E S : Type.

(** The machine after the actions of a schedule, none of which is blocked
    or crashes. *)
Fixpoint follow (handler : option (handler_fn In E S)) (concurrency cap : Z)
    (sched : list choice) (m : machine In E S) : option (machine In E S) :=
  match sched with
  | [] => Some m
  | ch :: rest =>
      match step handler concurrency cap ch m with
      | Some (Ok m') => follow handler concurrency cap rest m'
      | _ => None
      end
  end.

(** The concurrent part of [ForEachChunk] starts here. *)
Definition start_of (chunks : slice (slice In)) (s : S) : machine In E S :=
  mkMachine (elems chunks) 0 0 [] [] s [].

End Following.

(** ** The messages of error.go *)

From Stdlib Require String Ascii.

Section ErrorMessages.

Variables In E : Type.
(** [err.Error()] of the errors handed to [Continue] and [Stop]. *)
Variable message : E -> String.string.

(** The [Error] method of an element error. Its receiver is a pointer,
    which reading [e.Err] dereferences. *)
Definition ElemError_Error (e : ElemErrorPtr In E) : go_result runtime_error String.string :=
  err <- Err_of e ;;
  Ok (match err with
      | Some x => message x
      | None => String.EmptyString
      end).

(** The [Unwrap] method of an element error. *)
Definition ElemError_Unwrap (e : ElemErrorPtr In E) : go_result runtime_error (error E) :=
  Err_of e.

Definition newline : String.string :=
  String.String (Ascii.ascii_of_nat 10) String.EmptyString.

(** [for _, err := range e { b.WriteString(err.Error()); b.WriteString(newline) }] *)
Fixpoint write_loop (e : SliceError In E) (b : String.string)
  : go_result runtime_error String.string :=
  match e with
  | [] => Ok b
  | err :: rest =>
      m <- ElemError_Error err ;;
      write_loop rest (String.append (String.append b m) newline)
  end.

(** The [Error] method of an aggregate: the builder receives every message
    followed by a newline. *)
Definition SliceError_Error (e : SliceError In E) : go_result runtime_error String.string :=
  if llen e =? 0 then Ok String.EmptyString
  else write_loop e String.EmptyString.

End ErrorMessages.

(** ** Reading an aggregate *)

(** No element of the aggregate is the nil pointer. *)
Definition no_nil_element {In E} (e : SliceError In E) : Prop :=
  Forall (fun p => p <> None) e.

(** The element errors an aggregate points to, nil pointers left out. *)
Definition pointees {In E} (e : SliceError In E) : list (ElemError In E) :=
  flat_map (fun p => match p with Some x => [x] | None => [] end) e.

(** The claim C9 as it is written, for one aggregate and index: both
    indexed lookups return. *)
Definition lookups_return {In E} (e : SliceError In E) (i : Z) : Prop :=
  exists a o, At e i = Ok a /\ OriginAt e i = Ok o.

(** A list of indices that never goes down. *)
Fixpoint ascending (l : list Z) : Prop :=
  match l with
  | [] => True
  | a :: l' => Forall (fun b => a <= b) l' /\ ascending l'
  end.

(** The elements the handler was given, in the order its calls returned. *)
Definition handled {In E} (done : list (slice In * error E)) : list In :=
  flat_map (fun call => elems (fst call)) done.

(** ** record.go *)

(** A Go map is nil or holds entries with distinct keys. The order of the
    entries is the order in which a [range] loop over the map visits them;
    Go fixes no such order, and what is proved below holds for every
    order. *)
Inductive gomap (K V : Type) : Type :=
| NilMap
| MapOf (entries : list (K * V)).
Arguments NilMap {K V}.

Module record.

Section Maps.

Variable K : Type.
(** [==] on the comparable key type. *)
Variable eqb : K -> K -> bool.

Definition entries {V} (m : gomap K V) : list (K * V) :=
  match m with NilMap => [] | MapOf l => l end.

Definition distinct_keys {V} (m : gomap K V) : Prop := NoDup (map fst (entries m)).

Fixpoint find_entry {V} (k : K) (l : list (K * V)) : option V :=
  match l with
  | [] => None
  | (k', v) :: l' => if eqb k' k then Some v else find_entry k l'
  end.

(** [v, ok := m[k]] *)
Definition lookup {V} (m : gomap K V) (k : K) : option V := find_entry k (entries m).

(** [m[k] = v] on the entries of a non-nil map. *)
Fixpoint store {V} (k : K) (v : V) (l : list (K * V)) : list (K * V) :=
  match l with
  | [] => [(k, v)]
  | (k', v') :: l' => if eqb k' k then (k', v) :: l' else (k', v') :: store k v l'
  end.

(** [for k, v := range m { result[k] = v }] *)
Definition store_all {V} (es result : list (K * V)) : list (K * V) :=
  fold_left (fun r kv => store (fst kv) (snd kv) r) es result.

Definition Keys {V} (m : gomap K V) : slice K :=
  Slice (fold_left (fun keys kv => keys ++ [fst kv]) (entries m) []).

Definition Values {V} (m : gomap K V) : slice V :=
  Slice (fold_left (fun values kv => values ++ [snd kv]) (entries m) []).

Definition Clone {V} (m : gomap K V) : gomap K V :=
  match m with
  | NilMap => NilMap
  | MapOf es => MapOf (store_all es [])
  end.

Definition Merge {V} (maps : list (gomap K V)) : gomap K V :=
  MapOf (fold_left (fun result m => store_all (entries m) result) maps []).

(** The loop of [Filter]; a nil predicate is called all the same. *)
Fixpoint filter_loop {V} (predicate : option (K -> V -> bool)) (es result : list (K * V))
  : go_result runtime_error (list (K * V)) :=
  match es with
  | [] => Ok result
  | (k, v) :: es' =>
      match predicate with
      | None => Panic NilFuncCall
      | Some p => filter_loop predicate es' (if p k v then store k v result else result)
      end
  end.

Definition Filter {V} (m : gomap K V) (predicate : option (K -> V -> bool))
  : go_result runtime_error (gomap K V) :=
  match m with
  | NilMap => Ok NilMap
  | MapOf es => result <- filter_loop predicate es [] ;; Ok (MapOf result)
  end.


End Maps.

Section Transforms.

Variables K : Type.
Variable eqb : K -> K -> bool.

(** The loop of [MapValues]; a nil mapper is called all the same. *)
Fixpoint map_values_loop {InV OutV} (mapper : option (InV -> OutV))
    (es : list (K * InV)) (result : list (K * OutV))
  : go_result runtime_error (list (K * OutV)) :=
  match es with
  | [] => Ok result
  | (k, v) :: es' =>
      match mapper with
      | None => Panic NilFuncCall
      | Some f => map_values_loop mapper es' (store eqb k (f v) result)
      end
  end.

Definition MapValues {InV OutV} (m : gomap K InV) (mapper : option (InV -> OutV))
  : go_result runtime_error (gomap K OutV) :=
  match m with
  | NilMap => Ok NilMap
  | MapOf es => result <- map_values_loop mapper es [] ;; Ok (MapOf result)
  end.



End Transforms.

(** A predicate on keys and values, applied to an entry. *)
Definition passes {K V} (p : K -> V -> bool) (kv : K * V) : bool := p (fst kv) (snd kv).

(** The value a key ends up with when maps are merged in order: the one of
    the last map that has the key. *)
Definition later_wins {K V} (eqb : K -> K -> bool) (maps : list (gomap K V)) (k : K)
  : option V :=
  fold_left (fun found m => match lookup eqb m k with Some v => Some v | None => found end)
    maps None.

End record.

(** * Properties *)

(** ** Integers, lists and slices *)

Module GoIntFacts.
Import GoInt.

Lemma wrap_id z : in_range z -> wrap z = z.
Proof.
  unfold in_range, wrap, min_int, max_int. intros H.
  rewrite Z.mod_small; lia.
Qed.

Lemma wrap_in_range z : in_range (wrap z).
Proof.
  unfold in_range, wrap, min_int, max_int.
  pose proof (Z.mod_pos_bound (z + 2 ^ 63) (2 ^ 64)). lia.
Qed.

(** Wrapping an intermediate result does not change the wrapped end result. *)
Lemma wrap_sub_wrap a b : wrap (wrap a - b) = wrap (a - b).
Proof.
  unfold wrap. f_equal.
  replace ((a + 2 ^ 63) mod 2 ^ 64 - 2 ^ 63 - b + 2 ^ 63)
    with ((a + 2 ^ 63) mod 2 ^ 64 - b) by lia.
  rewrite Zminus_mod_idemp_l. f_equal. lia.
Qed.

(** The capacity [(n + size - 1) / size] that [Chunk] asks for is the
    mathematical one as long as [n + size - 1] is an [int]. *)
Lemma cap_exact n size :
  0 <= n -> 1 <= size -> n + size - 1 <= max_int ->
  quot (sub (add n size) 1) size = Z.quot (n + size - 1) size.
Proof.
  intros Hn Hs Hfit. unfold quot, sub, add.
  rewrite wrap_sub_wrap.
  rewrite (wrap_id (z := n + size - 1)) by (unfold in_range, min_int, max_int in *; lia).
  apply wrap_id.
  assert (0 <= Z.quot (n + size - 1) size <= n + size - 1).
  { split.
    - apply Z.quot_pos; lia.
    - rewrite Z.quot_div_nonneg by lia.
      apply Z.div_le_upper_bound; nia. }
  unfold in_range, min_int, max_int in *. lia.
Qed.

End GoIntFacts.

Section ListFacts.

Context {A : Type}.

Lemma llen_nonneg (l : list A) : 0 <= llen l.
Proof. unfold llen. lia. Qed.

Lemma llen_app (l1 l2 : list A) : llen (l1 ++ l2) = llen l1 + llen l2.
Proof. unfold llen. rewrite length_app. lia. Qed.

Lemma llen_zero (l : list A) : llen l = 0 <-> l = [].
Proof.
  unfold llen. destruct l; simpl; split; intros H; try reflexivity; try lia; discriminate.
Qed.

(** Indexing inside the bounds returns the element and does not panic. *)
Lemma index_in_range (l : list A) (i : Z) :
  0 <= i < llen l ->
  exists x, nth_error l (Z.to_nat i) = Some x /\ index l i = Ok x.
Proof.
  intros Hi. unfold index, llen in *.
  destruct (nth_error l (Z.to_nat i)) as [x|] eqn:Hx.
  - exists x. split; [reflexivity|].
    replace ((i <? 0) || (Z.of_nat (length l) <=? i)) with false; [reflexivity|].
    symmetry. apply orb_false_iff. split; [apply Z.ltb_ge | apply Z.leb_gt]; lia.
  - apply nth_error_None in Hx. lia.
Qed.

Lemma index_middle (pre : list A) (x : A) (post : list A) :
  index (pre ++ x :: post) (llen pre) = Ok x.
Proof.
  destruct (index_in_range (pre ++ x :: post) (i := llen pre)) as (y & Hy & Hidx).
  - rewrite llen_app. unfold llen. simpl. lia.
  - unfold llen in Hy. rewrite Nat2Z.id in Hy.
    rewrite nth_error_app2, Nat.sub_diag in Hy by lia.
    simpl in Hy. injection Hy as <-. exact Hidx.
Qed.

Lemma nth_error_cut (l : list A) (j : nat) (x : A) :
  nth_error l j = Some x ->
  l = firstn j l ++ x :: skipn (Datatypes.S j) l.
Proof.
  revert j. induction l as [|a l IH]; intros [|j] H; simpl in *; try discriminate.
  - now injection H as ->.
  - f_equal. apply IH. exact H.
Qed.

Lemma perm_start (a : A) (l1 l2 l3 : list A) :
  Permutation (a :: l1 ++ l2 ++ l3) (l1 ++ (l2 ++ [a]) ++ l3).
Proof.
  replace (l1 ++ (l2 ++ [a]) ++ l3) with ((l1 ++ l2) ++ a :: l3)
    by (now rewrite <- !app_assoc).
  apply Permutation_cons_app. now rewrite <- app_assoc.
Qed.

Lemma perm_return (a : A) (l1 p q l3 : list A) :
  Permutation (l1 ++ (p ++ a :: q) ++ l3) (l1 ++ (p ++ q) ++ l3 ++ [a]).
Proof.
  apply Permutation_app_head.
  rewrite <- !app_assoc. apply Permutation_app_head. simpl.
  replace (q ++ l3 ++ [a]) with ((q ++ l3) ++ [a]) by (now rewrite <- app_assoc).
  apply Permutation_cons_append.
Qed.

Lemma perm_send (a : A) (l1 p q : list A) :
  Permutation (l1 ++ p ++ a :: q) ((l1 ++ [a]) ++ p ++ q).
Proof.
  rewrite <- app_assoc. apply Permutation_app_head. simpl.
  symmetry. apply Permutation_middle.
Qed.

Lemma perm_fail (a : A) (x l1 p q : list A) :
  Permutation x (l1 ++ p ++ q) -> Permutation (x ++ [a]) (l1 ++ p ++ a :: q).
Proof.
  intros H. rewrite H. rewrite <- Permutation_cons_append.
  replace (l1 ++ p ++ a :: q) with ((l1 ++ p) ++ a :: q) by (now rewrite <- app_assoc).
  apply Permutation_cons_app. now rewrite <- app_assoc.
Qed.

End ListFacts.

(** ** error.go *)

Section ErrorFacts.

Variables In E : Type.

Lemma lookups_out_of_range (e : SliceError In E) (i : Z) :
  i < 0 \/ llen e <= i \/ e = [] -> At e i = Ok None /\ OriginAt e i = Ok None.
Proof.
  intros H. unfold At, OriginAt.
  destruct (llen e =? 0) eqn:He; [split; reflexivity|].
  destruct H as [H | [H | H]].
  - apply Z.ltb_lt in H. rewrite H. split; reflexivity.
  - apply Z.geb_le in H. rewrite H, orb_true_r. split; reflexivity.
  - subst e. discriminate He.
Qed.

Lemma lookups_inside (e : SliceError In E) (i : Z) :
  0 <= i < llen e ->
  exists p, nth_error e (Z.to_nat i) = Some p /\
            At e i = Ok (Some p) /\ OriginAt e i = Err_of p.
Proof.
  intros Hi. destruct (index_in_range e Hi) as (p & Hnth & Hidx).
  exists p. split; [exact Hnth|].
  unfold At, OriginAt. rewrite Hidx.
  replace (llen e =? 0) with false by (symmetry; apply Z.eqb_neq; lia).
  replace ((i <? 0) || (i >=? llen e)) with false; [split; reflexivity|].
  symmetry. apply orb_false_iff. split; [apply Z.ltb_ge; lia|].
  rewrite Z.geb_leb. apply Z.leb_gt. lia.
Qed.

(** C9, as the code has it. [At] never panics, and [OriginAt] panics exactly when the
    index is inside the aggregate and the element there is the nil
    pointer, which it dereferences; so on an aggregate without nil
    elements both lookups return. For a negative index, an index at or
    past the length, or an empty aggregate they return nil; for an index
    inside the aggregate [At] returns the element stored there and
    [OriginAt] the underlying error of an element that is not nil. *)
Theorem At_OriginAt_guarded (e : SliceError In E) (i : Z) :
  (exists a, At e i = Ok a) /\
  (i < 0 \/ llen e <= i \/ e = [] -> At e i = Ok None /\ OriginAt e i = Ok None) /\
  (0 <= i < llen e ->
   exists p, nth_error e (Z.to_nat i) = Some p /\
             At e i = Ok (Some p) /\
             OriginAt e i = match p with
                            | Some x => Ok (Err x)
                            | None => Panic NilDereference
                            end) /\
  (forall r, OriginAt e i = Panic r <->
             r = NilDereference /\ 0 <= i < llen e /\ nth_error e (Z.to_nat i) = Some None) /\
  (no_nil_element e -> lookups_return e i).
Proof.
  assert (Hcases : i < 0 \/ llen e <= i \/ 0 <= i < llen e) by lia.
  assert (Hout : i < 0 \/ llen e <= i -> At e i = Ok None /\ OriginAt e i = Ok None).
  { intros H. apply lookups_out_of_range. tauto. }
  split; [|split; [|split; [|split]]].
  - destruct Hcases as [H | [H | H]].
    + destruct Hout as [-> _]; eauto.
    + destruct Hout as [-> _]; eauto.
    + destruct (lookups_inside e H) as (p & _ & -> & _). eauto.
  - apply lookups_out_of_range.
  - intros Hi. destruct (lookups_inside e Hi) as (p & Hnth & Ha & Ho).
    exists p. split; [exact Hnth|]. split; [exact Ha|]. rewrite Ho. destruct p; reflexivity.
  - intros r. split.
    + intros Hp. destruct Hcases as [H | [H | H]].
      * destruct Hout as [_ Ho]; [auto|]. congruence.
      * destruct Hout as [_ Ho]; [auto|]. congruence.
      * destruct (lookups_inside e H) as (p & Hnth & _ & Ho).
        rewrite Ho in Hp. destruct p as [x|]; simpl in Hp; [discriminate|].
        injection Hp as <-. auto.
    + intros (-> & Hi & Hnth).
      destruct (lookups_inside e Hi) as (p & Hnth' & _ & Ho).
      rewrite Ho. rewrite Hnth in Hnth'. injection Hnth' as <-. reflexivity.
  - intros Hnn. unfold lookups_return. destruct Hcases as [H | [H | H]].
    + destruct Hout as [-> ->]; eauto.
    + destruct Hout as [-> ->]; eauto.
    + destruct (lookups_inside e H) as (p & Hnth & -> & ->).
      apply nth_error_In in Hnth.
      unfold no_nil_element in Hnn. rewrite Forall_forall in Hnn.
      specialize (Hnn p Hnth). destruct p as [x|]; [simpl; eauto | contradiction].
Qed.

End ErrorFacts.

(** C9 as it is written fails: an aggregate can hold a nil pointer, and
    [OriginAt] at its index dereferences it. *)
Lemma OriginAt_nil_element_panics :
  ~ lookups_return (In := Z) (E := nat) [None] 0.
Proof.
  intros (a & o & _ & Ho). discriminate Ho.
Qed.

Lemma At_OriginAt_guarded_witness :
  let e := [newElemError 3 7%nat (Some 11%nat); None; newElemError 5 9%nat None] in
  (At e (-1) = Ok None /\ OriginAt e (-1) = Ok None) /\
  (At e 3 = Ok None /\ OriginAt e 3 = Ok None) /\
  (At (@nil (ElemErrorPtr nat nat)) 0 = Ok None /\
   OriginAt (@nil (ElemErrorPtr nat nat)) 0 = Ok None) /\
  OriginAt e 1 = Panic NilDereference /\
  no_nil_element [newElemError 3 7%nat (Some 11%nat)] /\
  lookups_return [newElemError 3 7%nat (Some 11%nat)] 0.
Proof.
  intros e.
  split; [apply (At_OriginAt_guarded e (-1)); left; lia|].
  split; [apply (At_OriginAt_guarded e 3); right; left; unfold llen; simpl; lia|].
  split; [apply (At_OriginAt_guarded (@nil (ElemErrorPtr nat nat)) 0); right; right;
          reflexivity|].
  split; [apply (At_OriginAt_guarded e 1); split; [reflexivity|]; split;
          [unfold llen; simpl; lia | reflexivity]|].
  assert (Hnn : no_nil_element [newElemError 3 7%nat (Some 11%nat)])
    by (repeat constructor; discriminate).
  split; [exact Hnn|].
  apply (At_OriginAt_guarded [newElemError 3 7%nat (Some 11%nat)] 0). exact Hnn.
Defined.

(** ** Chunk and Flatten *)

Section ChunkFacts.

Variable In : Type.

(** What the loop of [Chunk] adds to [chunks]: full chunks followed by one
    last chunk with the rest, all of them non-nil and, put end to end,
    equal to the input. *)
Lemma chunk_loop_shape (size : positive) (input : list In) (chunks : list (slice In)) :
  exists body last,
    chunk_loop size input chunks = chunks ++ body ++ [Slice last] /\
    Forall (full_chunk (Z.pos size)) body /\
    llen last <= Z.pos size /\
    (input <> [] -> 0 < llen last) /\
    concat (map (@elems In) body) ++ last = input.
Proof.
  funelim (chunk_loop size input chunks).
  - destruct H as (body & last & Hloop & Hfull & Hle & Hpos & Hcat).
    exists (Slice (firstn (Pos.to_nat size) input) :: body), last.
    rewrite Hloop, <- app_assoc. simpl.
    split; [reflexivity|].
    assert (Hlen : llen (firstn (Pos.to_nat size) input) = Z.pos size).
    { unfold llen in *. rewrite length_firstn. lia. }
    split; [constructor; [exists (firstn (Pos.to_nat size) input); auto | exact Hfull]|].
    split; [exact Hle|].
    split.
    + intros _. apply Hpos. intros Hnil.
      apply (f_equal (@length In)) in Hnil.
      rewrite length_skipn in Hnil. unfold llen in *. simpl in Hnil. lia.
    + rewrite <- app_assoc, Hcat. apply firstn_skipn.
  - exists [], input. simpl.
    split; [reflexivity|]. split; [constructor|]. split; [lia|].
    split; [|reflexivity].
    intros Hne. destruct input; [contradiction|]. unfold llen. simpl. lia.
Qed.

(** [Chunk] on the sizes whose capacity computation stays inside [int]. *)
Lemma Chunk_partitions (l : list In) (size : Z) :
  l <> [] ->
  llen l + effective_size size - 1 <= GoInt.max_int ->
  exists body last,
    Chunk (Slice l) size = Ok (Slice (body ++ [Slice last])) /\
    Forall (full_chunk (effective_size size)) body /\
    0 < llen last <= effective_size size /\
    concat (map (@elems In) body) ++ last = l.
Proof.
  intros Hne Hfit. unfold Chunk.
  replace (llen l =? 0) with false
    by (symmetry; apply Z.eqb_neq; rewrite llen_zero; exact Hne).
  fold (effective_size size).
  assert (Hs : 1 <= effective_size size).
  { unfold effective_size. destruct (size <=? 0) eqn:Hsz; [lia|]. apply Z.leb_gt in Hsz. lia. }
  pose proof (llen_nonneg l) as Hl.
  rewrite GoIntFacts.cap_exact by assumption.
  unfold make_cap.
  replace (Z.quot (llen l + effective_size size - 1) (effective_size size) <? 0) with false.
  2:{ symmetry. apply Z.ltb_ge. apply Z.quot_pos; lia. }
  simpl.
  destruct (chunk_loop_shape (Z.to_pos (effective_size size)) l [])
    as (body & last & Heq & Hfull & Hle & Hpos & Hcat).
  rewrite Z2Pos.id in Hfull, Hle by lia.
  exists body, last. rewrite Heq. simpl.
  repeat split; auto.
Qed.

Lemma flatten_append (ss : list (slice In)) (acc : list In) :
  fold_left (fun r s => r ++ elems s) ss acc = acc ++ concat (map (@elems In) ss).
Proof.
  revert acc. induction ss as [|s ss IH]; intros acc; simpl.
  - now rewrite app_nil_r.
  - rewrite IH. now rewrite app_assoc.
Qed.

Lemma flatten_totalLen (ss : list (slice In)) (n : Z) :
  0 <= n ->
  n + llen (concat (map (@elems In) ss)) <= GoInt.max_int ->
  fold_left (fun n s => GoInt.add n (len s)) ss n = n + llen (concat (map (@elems In) ss)).
Proof.
  revert n. induction ss as [|s ss IH]; intros n Hn Hfit; simpl in *.
  - unfold llen. simpl. lia.
  - rewrite llen_app in *.
    pose proof (llen_nonneg (elems s)). pose proof (llen_nonneg (concat (map (@elems In) ss))).
    unfold GoInt.add, len. rewrite GoIntFacts.wrap_id.
    + rewrite IH; lia.
    + unfold GoInt.in_range, GoInt.min_int, GoInt.max_int in *. lia.
Qed.

(** [Flatten] puts the inner slices end to end. *)
Lemma Flatten_concat (ss : list (slice In)) :
  ss <> [] ->
  llen (concat (map (@elems In) ss)) <= GoInt.max_int ->
  Flatten (Slice ss) = Ok (Slice (concat (map (@elems In) ss))).
Proof.
  intros Hne Hfit. unfold Flatten.
  replace (llen ss =? 0) with false
    by (symmetry; apply Z.eqb_neq; rewrite llen_zero; exact Hne).
  rewrite flatten_totalLen by (simpl; lia).
  unfold make_cap.
  replace (0 + llen (concat (map (@elems In) ss)) <? 0) with false.
  2:{ symmetry. apply Z.ltb_ge. pose proof (llen_nonneg (concat (map (@elems In) ss))). lia. }
  simpl. now rewrite flatten_append.
Qed.

(** The part of C6 the code keeps: nil stays nil, an empty non-nil input
    gives an empty non-nil result, a size of 0 or less works as size 1,
    and on every size whose capacity computation stays inside [int] the
    chunks are full but for a shorter last one and [Flatten] gives the
    input back. *)
Lemma Chunk_Flatten_roundtrip (l : list In) (size : Z) :
  llen l + effective_size size - 1 <= GoInt.max_int ->
  Chunk (@Nil In) size = Ok Nil /\
  Chunk (Slice (@nil In)) size = Ok (Slice []) /\
  (size <= 0 -> Chunk (Slice l) size = Chunk (Slice l) 1) /\
  (l <> [] ->
   exists body last,
     Chunk (Slice l) size = Ok (Slice (body ++ [Slice last])) /\
     Forall (full_chunk (effective_size size)) body /\
     0 < llen last <= effective_size size /\
     Flatten (Slice (body ++ [Slice last])) = Ok (Slice l)).
Proof.
  intros Hfit. split; [reflexivity|]. split; [reflexivity|]. split.
  - intros Hs. unfold Chunk.
    replace (size <=? 0) with true by (symmetry; apply Z.leb_le; exact Hs).
    reflexivity.
  - intros Hne.
    destruct (Chunk_partitions size Hne Hfit) as (body & last & Hc & Hfull & Hlast & Hcat).
    exists body, last. repeat split; try assumption; try lia.
    assert (Hflat : concat (map (@elems In) (body ++ [Slice last])) = l).
    { rewrite map_app, concat_app. simpl. rewrite app_nil_r. exact Hcat. }
    rewrite Flatten_concat.
    + now rewrite Hflat.
    + destruct body; discriminate.
    + rewrite Hflat. pose proof (llen_nonneg l).
      assert (1 <= effective_size size).
      { unfold effective_size. destruct (size <=? 0) eqn:Hsz; [lia|]. apply Z.leb_gt in Hsz. lia. }
      lia.
Qed.

End ChunkFacts.

Example Chunk_uneven :
  Chunk (Slice [1; 2; 3; 4; 5]) 2 = Ok (Slice [Slice [1; 2]; Slice [3; 4]; Slice [5]]).
Proof. reflexivity. Qed.

Example Chunk_size_zero :
  Chunk (Slice [1; 2]) 0 = Ok (Slice [Slice [1]; Slice [2]]).
Proof. reflexivity. Qed.

(** C6. [Chunk] does not return for every size: with two elements and the
    largest [int] as size, [len(input)+size-1] wraps around to the smallest
    [int], the capacity handed to [make] is -1 and the call panics, where
    the claim has the single chunk [[1; 2]]. The same holds with three
    elements, and [ForEachChunk] inherits it. *)
Theorem Chunk_panics_on_large_size :
  GoInt.in_range GoInt.max_int /\
  GoInt.quot (GoInt.sub (GoInt.add 2 GoInt.max_int) 1) GoInt.max_int = -1 /\
  Chunk (Slice [1; 2]) GoInt.max_int = Panic MakesliceCapOutOfRange /\
  Chunk (Slice [1; 2; 3]) GoInt.max_int = Panic MakesliceCapOutOfRange /\
  Chunk (Slice [1; 2]) (GoInt.max_int - 1) = Ok (Slice [Slice [1; 2]]).
Proof.
  split; [unfold GoInt.in_range, GoInt.min_int, GoInt.max_int; lia|].
  repeat split; reflexivity.
Qed.

(** ** Collect *)

Section CollectorFacts.

Variables In Out E P S : Type.
Variable zero : Out.

Abbreviation ctx := (collectorContextImpl In Out E).
Abbreviation visit := (visit In Out E P).

Lemma wrap_errs_ok (input : list In) (i : Z) (x : In) (errs : list (error E))
    (acc : list (ElemErrorPtr In E)) :
  index input i = Ok x ->
  wrap_errs P input i errs acc =
    Ok (acc ++ map (fun e => newElemError i x (Some e)) (non_nil errs)).
Proof.
  intros Hx. revert acc. induction errs as [|[e|] errs IH]; intros acc; simpl.
  - now rewrite app_nil_r.
  - unfold elemGetter. rewrite Hx. simpl. rewrite IH, <- app_assoc. reflexivity.
  - apply IH.
Qed.

Lemma call_left_as (input : list In) (result : slice Out) (s0 : S) (i : Z) (x : In)
    (p : step_fn In Out E P S) (c : ctx) :
  clean i c ->
  index input i = Ok x ->
  left_as i x (call input result s0 p c) (ending_of input result p c).
Proof.
  intros Hc Hx. revert c Hc.
  induction p as [s|k IH|j y k IH|k IH|v k IH|k IH|s errs|s errs|s r]; intros c Hc; simpl.
  - destruct Hc as (H1 & H2 & _). unfold left_as, recovered. simpl. repeat split; auto.
  - apply IH. unfold sliceGetter, clean in *. destruct (copied c); simpl; exact Hc.
  - assert (Hc' : clean i (sliceGetter input c))
      by (unfold sliceGetter, clean in *; destruct (copied c); simpl; exact Hc).
    destruct (store_at (elems (copied (sliceGetter input c))) j y) as [l|r].
    + apply IH. unfold clean in *. simpl. exact Hc'.
    + unfold left_as, recovered. simpl. repeat split; auto.
  - destruct Hc as (H1 & H2 & H3 & H4 & H5).
    unfold elemGetter. rewrite H5, Hx. apply IH. unfold clean. auto.
  - apply IH. unfold clean, SetValue in *. simpl. exact Hc.
  - apply IH. exact Hc.
  - destruct Hc as (H1 & H2 & H3 & H4 & H5).
    unfold Continue. rewrite H5, H4, wrap_errs_ok with (x := x) by exact Hx.
    unfold left_as, recovered. simpl. repeat split; auto.
  - destruct Hc as (H1 & H2 & H3 & H4 & H5).
    unfold Stop. rewrite H5, H3, wrap_errs_ok with (x := x) by exact Hx.
    unfold left_as, recovered. simpl. repeat split; auto.
  - destruct Hc as (H1 & H2 & H3 & H4 & H5).
    unfold left_as, recovered. simpl.
    destruct r as [[| |]| |]; simpl; repeat split; auto.
Qed.

Lemma append_if_any (A : Type) (errs l : list A) :
  (if 0 <? llen l then errs ++ l else errs) = errs ++ l.
Proof.
  destruct l; simpl; [now rewrite app_nil_r | reflexivity].
Qed.

Lemma extend_extend (result : slice Out) (a b : list Out) :
  extend (extend result a) b = extend result (a ++ b).
Proof.
  destruct a as [|x a]; [reflexivity|].
  destruct b as [|y b]; simpl; [now rewrite app_nil_r|].
  now rewrite <- app_assoc.
Qed.

Lemma elems_extend (result : slice Out) (l : list Out) :
  elems (extend result l) = elems result ++ l.
Proof.
  destruct l; simpl; [now rewrite app_nil_r | reflexivity].
Qed.

(** The loop of [Collect] runs as its invocations tell. *)
Lemma collect_loop_runs_as (handler : S -> step_fn In Out E P S) (input : list In) :
  forall (rest pre : list In) (c : ctx) (s : S) (result : slice Out)
         (errs : SliceError In E) (seen : list visit),
    input = pre ++ rest ->
    exists vs,
      visits (collect_loop handler input rest (llen pre) c s result errs seen) = seen ++ vs /\
      runs_as (llen pre) rest result errs vs
        (returned (collect_loop handler input rest (llen pre) c s result errs seen)).
Proof.
  induction rest as [|x rest IH]; intros pre c s result errs seen Hin.
  - exists []. simpl. rewrite app_nil_r. split; [reflexivity | constructor].
  - cbn [collect_loop].
    set (c0 := set_currentIndex (llen pre) _).
    assert (Hc0 : clean (llen pre) c0) by (unfold clean; simpl; auto).
    assert (Hx : index input (llen pre) = Ok x) by (rewrite Hin; apply index_middle).
    pose proof (call_left_as input result s (handler s) Hc0 Hx) as Hleft.
    set (raw := call input result s (handler s) c0) in *.
    set (en := ending_of input result (handler s) c0) in *.
    set (v := mkVisit (llen pre) x (value_set (left_ctx raw)) en).
    assert (Hnext : input = (pre ++ [x]) ++ rest) by (rewrite <- app_assoc; exact Hin).
    assert (Hlen : llen (pre ++ [x]) = llen pre + 1) by (rewrite llen_app; reflexivity).
    destruct Hleft as (Hval & Hclo & Hleft).
    destruct en as [|es|es|r] eqn:Hen.
    + destruct Hleft as (Hp & Hs & Hk). rewrite Hp, Hs, Hk.
      destruct (IH (pre ++ [x]) (left_ctx (recovered raw)) (left_closure (recovered raw))
                  (if hasValue (left_ctx (recovered raw))
                   then append result (currentValue (left_ctx (recovered raw))) else result)
                  errs (seen ++ [v]) Hnext) as (vs & Hvs & Hrun).
      rewrite Hlen in Hvs, Hrun.
      exists (v :: vs). split; [rewrite Hvs, <- app_assoc; reflexivity|].
      apply run_pass; try reflexivity; try exact I.
      unfold wrapped, kept. simpl. rewrite app_nil_r.
      unfold value_set in *. rewrite <- Hval.
      destruct (hasValue (left_ctx (recovered raw))); exact Hrun.
    + destruct Hleft as (Hp & Hs & Hk & He). rewrite Hp, Hs, Hk, append_if_any, He.
      destruct (IH (pre ++ [x]) (left_ctx (recovered raw)) (left_closure (recovered raw))
                  result (errs ++ map (fun e => newElemError (llen pre) x (Some e)) (non_nil es))
                  (seen ++ [v]) Hnext) as (vs & Hvs & Hrun).
      rewrite Hlen in Hvs, Hrun.
      exists (v :: vs). split; [rewrite Hvs, <- app_assoc; reflexivity|].
      apply run_pass; try reflexivity; try exact I.
      unfold kept. simpl. exact Hrun.
    + destruct Hleft as (Hp & Hs & He). rewrite Hp, Hs, append_if_any, He.
      exists [v]. split; [reflexivity|].
      apply (@run_halt In Out E P _ _ rest result errs v); try reflexivity; try exact I.
    + destruct r as [[| |]|re|u].
      * rewrite Hleft. exists [v]. split; [reflexivity|].
        apply (@run_panic In Out E P _ _ rest result errs v); try reflexivity; discriminate.
      * destruct Hleft as (Hp & Hs & He). rewrite Hp, Hs, append_if_any, He.
        exists [v]. split; [reflexivity|].
        apply (@run_halt In Out E P _ _ rest result errs v); try reflexivity; try exact I.
      * destruct Hleft as (Hp & Hs & Hk & He). rewrite Hp, Hs, Hk, append_if_any, He.
        destruct (IH (pre ++ [x]) (left_ctx (recovered raw)) (left_closure (recovered raw))
                    result (errs ++ []) (seen ++ [v]) Hnext) as (vs & Hvs & Hrun).
        rewrite Hlen in Hvs, Hrun.
        exists (v :: vs). split; [rewrite Hvs, <- app_assoc; reflexivity|].
        apply run_pass; try reflexivity; try exact I.
        unfold kept, wrapped. simpl. exact Hrun.
      * rewrite Hleft. exists [v]. split; [reflexivity|].
        apply (@run_panic In Out E P _ _ rest result errs v); try reflexivity; discriminate.
      * rewrite Hleft. exists [v]. split; [reflexivity|].
        apply (@run_panic In Out E P _ _ rest result errs v); try reflexivity; discriminate.
Qed.

(** [Collect] with a step function on a non-empty input. *)
Lemma Collect_runs_as (input : slice In) (handler : S -> step_fn In Out E P S) (s : S) :
  runs_as 0 (elems input) Nil [] (visits (Collect zero input (Some handler) s))
    (returned (Collect zero input (Some handler) s)).
Proof.
  unfold Collect. destruct (len input =? 0) eqn:Hlen.
  - apply Z.eqb_eq in Hlen. unfold len in Hlen. apply llen_zero in Hlen.
    rewrite Hlen. simpl. constructor.
  - destruct (collect_loop_runs_as handler (input := elems input) (elems input) []
                (mkContext Nil false false [] [] 0 zero false) s Nil [] []
                eq_refl) as (vs & Hvs & Hrun).
    simpl in Hvs. change (llen []) with 0 in *. rewrite Hvs. exact Hrun.
Qed.

End CollectorFacts.

(** What follows from [runs_as], whatever the step function is. *)

Section RunsAsFacts.

Variables In Out E P : Type.

Abbreviation visit' := (visit In Out E P).
Abbreviation outcome' := (go_result (panic_value P) (slice Out * option (SliceError In E))).

Lemma passing_not_halting (v : visit') : passing v -> halting v -> False.
Proof.
  unfold passing, halting. destruct (v_end v) as [| | |[[| |]| |]]; tauto.
Qed.

Lemma halting_kept (v : visit') : halting v -> kept v = [].
Proof.
  unfold halting, kept. destruct (v_end v); [tauto|reflexivity..].
Qed.

Lemma in_non_nil (e : E) (errs : list (error E)) :
  List.In e (non_nil errs) <-> List.In (Some e) errs.
Proof.
  induction errs as [|[a|] errs IH]; simpl.
  - tauto.
  - rewrite IH. split; intros [H|H]; auto; left; congruence.
  - rewrite IH. split; [auto|]. intros [H|H]; [discriminate|exact H].
Qed.




(** Invocations are made in input order, one index after the other. *)
Lemma runs_as_nth i rest result errs vs (out : outcome') :
  runs_as i rest result errs vs out ->
  forall (j : nat) (v : visit'),
  nth_error vs j = Some v ->
  v_index v = i + Z.of_nat j /\ nth_error rest j = Some (v_elem v).
Proof.
  induction 1 as [| i x rest result errs v0 vs out Hi Hx Hp Hr IH
                               | i x rest result errs v0 Hi Hx Hh
                               | i x rest result errs v0 r Hi Hx He Hr1 Hr2];
    intros j v Hj.
  - destruct j; discriminate.
  - destruct j as [|j]; simpl in *.
    + injection Hj as <-. split; [lia | congruence].
    + destruct (IH j v Hj) as [H1 H2]. split; [lia | exact H2].
  - destruct j as [|[|j]]; simpl in *; try discriminate.
    injection Hj as <-. split; [lia | congruence].
  - destruct j as [|[|j]]; simpl in *; try discriminate.
    injection Hj as <-. split; [lia | congruence].
Qed.

Lemma runs_as_nonempty i rest result errs vs (out : outcome') :
  runs_as i rest result errs vs out ->
  forall (x : In) (rest' : list In), rest = x :: rest' -> vs <> [].
Proof. destruct 1; intros; discriminate. Qed.

(** A halting invocation is the last one; the call returns what was
    collected before it and the errors it supplied. *)
Lemma runs_as_halt_at i rest result errs vs (out : outcome') :
  runs_as i rest result errs vs out ->
  forall (k : nat) (v : visit'),
  nth_error vs k = Some v -> halting v ->
  length vs = Datatypes.S k /\
  out = Ok (extend result (flat_map (@kept In Out E P) (firstn k vs)),
            as_error (errs ++ flat_map (@wrapped In Out E P) (firstn k vs) ++ wrapped v)).
Proof.
  induction 1 as [| i x rest result errs v0 vs out Hi Hx Hp Hr IH
                               | i x rest result errs v0 Hi Hx Hh
                               | i x rest result errs v0 r Hi Hx He Hr1 Hr2];
    intros k v Hk Hhalt.
  - destruct k; discriminate.
  - destruct k as [|k]; simpl in *.
    + injection Hk as <-. exfalso; eapply passing_not_halting; eassumption.
    + destruct (IH k v Hk Hhalt) as [Hlen Hout].
      split; [now rewrite Hlen|].
      rewrite Hout, extend_extend, <- !app_assoc. reflexivity.
  - destruct k as [|[|k]]; simpl in *; try discriminate.
    injection Hk as <-. split; reflexivity.
  - destruct k as [|[|k]]; simpl in *; try discriminate.
    injection Hk as <-. unfold halting in Hhalt. rewrite He in Hhalt.
    destruct r as [[| |]| |]; try tauto; congruence.
Qed.

(** When the call returns, the output holds what the invocations kept
    and the aggregate holds what they supplied. *)
Lemma runs_as_ok i rest result errs vs (out : outcome') :
  runs_as i rest result errs vs out ->
  forall (res : slice Out) (agg : option (SliceError In E)),
  out = Ok (res, agg) ->
  res = extend result (flat_map (@kept In Out E P) vs) /\
  agg = as_error (errs ++ flat_map (@wrapped In Out E P) vs).
Proof.
  induction 1 as [| i x rest result errs v0 vs out Hi Hx Hp Hr IH
                     | i x rest result errs v0 Hi Hx Hh
                     | i x rest result errs v0 r Hi Hx He Hr1 Hr2];
    intros res agg Hout.
  - injection Hout as <- <-. simpl. now rewrite app_nil_r.
  - destruct (IH _ _ Hout) as [-> ->]. simpl.
    rewrite extend_extend, <- app_assoc. split; reflexivity.
  - injection Hout as <- <-. simpl. rewrite halting_kept by assumption. rewrite !app_nil_r.
    split; reflexivity.
  - discriminate.
Qed.


(** A panic that is not one of the two signals ends the call with that
    very panic ... *)
Lemma runs_as_panic_at i rest result errs vs (out : outcome') :
  runs_as i rest result errs vs out ->
  forall (j : nat) (v : visit') (r : panic_value P),
  nth_error vs j = Some v -> v_end v = EPanic r ->
  r <> PSignal sigStop -> r <> PSignal sigContinue ->
  out = Panic r.
Proof.
  induction 1 as [| i x rest result errs v0 vs out Hi Hx Hp Hr IH
                               | i x rest result errs v0 Hi Hx Hh
                               | i x rest result errs v0 r0 Hi Hx He Hr1 Hr2];
    intros j v r Hj Hend Hn1 Hn2.
  - destruct j; discriminate.
  - destruct j as [|j]; simpl in *.
    + injection Hj as <-. unfold passing in Hp. rewrite Hend in Hp.
      destruct r as [[| |]| |]; try tauto; congruence.
    + apply (IH j v r Hj Hend Hn1 Hn2).
  - destruct j as [|[|j]]; simpl in *; try discriminate.
    injection Hj as <-. unfold halting in Hh. rewrite Hend in Hh.
    destruct r as [[| |]| |]; try tauto; congruence.
  - destruct j as [|[|j]]; simpl in *; try discriminate.
    injection Hj as <-. congruence.
Qed.

(** ... and the call panics in no other way. *)
Lemma runs_as_panic i rest result errs vs (out : outcome') :
  runs_as i rest result errs vs out ->
  forall (r : panic_value P),
  out = Panic r ->
  r <> PSignal sigStop /\ r <> PSignal sigContinue /\
  exists before v, vs = before ++ [v] /\ v_end v = EPanic r.
Proof.
  induction 1 as [| i x rest result errs v0 vs out Hi Hx Hp Hr IH
                     | i x rest result errs v0 Hi Hx Hh
                     | i x rest result errs v0 r0 Hi Hx He Hr1 Hr2];
    intros r' Hout.
  - discriminate.
  - destruct (IH _ Hout) as (H1 & H2 & before & v & -> & Hend).
    split; [exact H1|]. split; [exact H2|].
    exists (v0 :: before), v. split; [reflexivity | exact Hend].
  - discriminate.
  - injection Hout as <-. split; [exact Hr1|]. split; [exact Hr2|].
    exists [], v0. split; [reflexivity | exact He].
Qed.

End RunsAsFacts.

(** ** The claims about Collect *)

Section CollectClaims.

Variables In Out E P S : Type.
Variable zero : Out.

Abbreviation run_of input handler s := (Collect (P := P) zero input (Some handler) s).

(** C2. If the step function calls [Stop] in the invocation at index [k],
    that invocation is the last one: the invocations made are those for
    the indices 0 to [k], in input order, so the step function is not run
    on any later element. [Collect] returns, as output, the values set by
    the invocations before [k] that returned normally, in input order,
    and nothing for index [k] or later, and as aggregate what the earlier
    invocations supplied followed by the non-nil errors of the [Stop]
    call, each with index [k] and its element. *)
Theorem Collect_Stop_halts (input : slice In) (handler : S -> step_fn In Out E P S)
    (s : S) (k : nat) (v : visit In Out E P) (errs : list (error E)) :
  nth_error (visits (run_of input handler s)) k = Some v ->
  v_end v = EStop errs ->
  let r := run_of input handler s in
  let before := firstn k (visits r) in
  length (visits r) = Datatypes.S k /\
  (forall j w, nth_error (visits r) j = Some w ->
               v_index w = Z.of_nat j /\ nth_error (elems input) j = Some (v_elem w)) /\
  exists res,
    returned r =
      Ok (res, as_error (flat_map (@wrapped In Out E P) before ++
                         map (fun e => newElemError (Z.of_nat k) (v_elem v) (Some e))
                             (non_nil errs))) /\
    elems res = flat_map (@kept In Out E P) before.
Proof.
  intros Hk Hend r before.
  pose proof (Collect_runs_as zero input handler s) as Hrun.
  fold r in Hrun.
  assert (Hhalt : halting v) by (unfold halting; rewrite Hend; exact I).
  destruct (runs_as_halt_at Hrun k Hk Hhalt) as [Hlen Hout].
  destruct (runs_as_nth Hrun k Hk) as [Hidx _].
  split; [exact Hlen|]. split.
  - intros j w Hj. destruct (runs_as_nth Hrun j Hj) as [H1 H2]. split; [lia | exact H2].
  - exists (extend Nil (flat_map (@kept In Out E P) before)). split.
    + rewrite Hout. unfold wrapped at 2, supplied. rewrite Hend, Hidx. reflexivity.
    + now rewrite elems_extend.
Qed.





(** C5. A panic of the step function that is not the stop signal or the
    continue signal ends [Collect] with that same panic value, and
    [Collect] panics in no other case: the value it panics with is the one
    the last invocation raised, and it is neither of the two signals. *)
Theorem Collect_propagates_panics (input : slice In) (handler : S -> step_fn In Out E P S)
    (s : S) :
  let r := run_of input handler s in
  (forall j v p, nth_error (visits r) j = Some v -> v_end v = EPanic p ->
                 p <> PSignal sigStop -> p <> PSignal sigContinue ->
                 returned r = Panic p) /\
  (forall p, returned r = Panic p ->
             p <> PSignal sigStop /\ p <> PSignal sigContinue /\
             exists before v, visits r = before ++ [v] /\ v_end v = EPanic p).
Proof.
  intros r.
  pose proof (Collect_runs_as zero input handler s) as Hrun.
  fold r in Hrun. split.
  - intros j v p Hj Hend H1 H2. exact (runs_as_panic_at Hrun j Hj Hend H1 H2).
  - intros p Hp. exact (runs_as_panic Hrun Hp).
Qed.

End CollectClaims.

Lemma Collect_Stop_halts_witness :
  let r := Collect (P := nat) 0 (Slice [1; 2; 3]) (Some Samples.stop_at_two) tt in
  nth_error (visits r) 1 = Some (mkVisit 1 2 None (EStop [None; Some 7%nat])) /\
  length (visits r) = 2%nat /\
  returned r = Ok (Slice [1], Some [newElemError 1 2 (Some 7%nat)]).
Proof.
  intros r. split; [reflexivity|].
  destruct (@Collect_Stop_halts Z Z nat nat unit 0 (Slice [1; 2; 3]) Samples.stop_at_two tt
              1%nat (mkVisit 1 2 None (EStop [None; Some 7%nat])) [None; Some 7%nat]
              eq_refl eq_refl) as (Hlen & _ & res & Hret & Hres).
  split; [exact Hlen | reflexivity].
Defined.




Lemma Collect_propagates_panics_witness :
  returned (Collect 0 (Slice [1; 2; 3]) (Some Samples.panic_at_two) tt) = Panic (PUser 42%nat).
Proof.
  apply (proj1 (@Collect_propagates_panics Z Z nat nat unit 0 (Slice [1; 2; 3])
                  Samples.panic_at_two tt)
           1%nat (mkVisit 1 2 None (EPanic (PUser 42%nat))) (PUser 42%nat));
    [reflexivity | reflexivity | discriminate | discriminate].
Defined.

(** ** Filter *)

Section FilterClaims.

Variable In : Type.
Variable zero : In.

Abbreviation fctx := (collectorContextImpl In In Empty_set).

Lemma extend_append (result : slice In) (x : In) (l : list In) :
  extend (append result x) l = extend result (x :: l).
Proof.
  unfold append. destruct l; simpl; [reflexivity|]. now rewrite <- app_assoc.
Qed.

(** The loop of [Collect] under the closure of [Filter]: the elements that
    satisfy the predicate are appended, the others are skipped, and no
    error is recorded. *)
Lemma filter_loop (p : In -> bool) (input : list In) :
  forall (rest pre : list In) (c : fctx) (result : slice In)
         (errs : SliceError In Empty_set) (seen : list (visit In In Empty_set Empty_set)),
    input = pre ++ rest ->
    returned (collect_loop (filter_step p) input rest (llen pre) c tt result errs seen) =
      Ok (extend result (List.filter p rest), as_error errs).
Proof.
  induction rest as [|x rest IH]; intros pre c result errs seen Hin.
  - reflexivity.
  - assert (Hx : index input (llen pre) = Ok x) by (rewrite Hin; apply index_middle).
    assert (Hnext : input = (pre ++ [x]) ++ rest) by (rewrite <- app_assoc; exact Hin).
    assert (Hlen : llen (pre ++ [x]) = llen pre + 1) by (rewrite llen_app; reflexivity).
    cbn [collect_loop].
    set (c0 := set_currentIndex (llen pre) _).
    assert (Hcall : call input result tt (filter_step p tt) c0 =
                    if p x then mkLeft (SetValue x c0) tt None
                    else @Continue In In Empty_set Empty_set unit input [] tt c0).
    { unfold filter_step. cbn [call]. unfold elemGetter.
      replace (currentIndex c0) with (llen pre) by reflexivity.
      rewrite Hx. destruct (p x); reflexivity. }
    rewrite Hcall. cbn [List.filter]. destruct (p x).
    + unfold recovered. simpl. rewrite <- Hlen, IH by exact Hnext.
      now rewrite extend_append.
    + unfold Continue, recovered. simpl. rewrite <- Hlen, IH by exact Hnext.
      reflexivity.
Qed.

Lemma count_filter (p : In -> bool) (l : list In) : llen (List.filter p l) = count p l.
Proof.
  induction l as [|x l IH]; simpl; [reflexivity|].
  destruct (p x); [|exact IH].
  unfold llen in *. simpl length. lia.
Qed.

(** C7. [Filter] returns the elements of the input that satisfy the
    predicate, in their order in the input, so as many as satisfy it; with
    an empty input or without a predicate it returns the input slice
    itself. *)
Theorem Filter_keeps_matching (input : slice In) (p : In -> bool) :
  (exists res, Filter zero input (Some p) = Ok res /\
               elems res = List.filter p (elems input) /\
               len res = count p (elems input)) /\
  (len input = 0 -> forall predicate, Filter zero input predicate = Ok input) /\
  Filter zero input None = Ok input.
Proof.
  split; [|split].
  - unfold Filter. destruct (len input =? 0) eqn:Hlen.
    + apply Z.eqb_eq in Hlen. unfold len in Hlen. apply llen_zero in Hlen.
      exists input. unfold len. rewrite Hlen. repeat split; reflexivity.
    + unfold Collect. rewrite Hlen.
      rewrite (filter_loop p (input := elems input) (elems input) [] _ Nil [] [] eq_refl).
      exists (extend Nil (List.filter p (elems input))). simpl.
      split; [reflexivity|].
      assert (He : elems (extend Nil (List.filter p (elems input))) =
                   List.filter p (elems input))
        by (destruct (List.filter p (elems input)); reflexivity).
      split; [exact He|]. unfold len. rewrite He. apply count_filter.
  - intros Hlen predicate. unfold Filter.
    apply Z.eqb_eq in Hlen. now rewrite Hlen.
  - unfold Filter. destruct (len input =? 0); reflexivity.
Qed.

End FilterClaims.

Lemma Filter_keeps_matching_witness :
  Filter 0 (Slice [1; 2; 3; 4; 5]) (Some Samples.is_even) = Ok (Slice [2; 4]) /\
  Filter 0 (Slice [1; 3]) (Some Samples.is_even) = Ok Nil /\
  Filter 0 (Slice []) (Some Samples.is_even) = Ok (Slice []).
Proof.
  split; [reflexivity|]. split; [reflexivity|].
  exact (proj1 (proj2 (Filter_keeps_matching 0 (Slice []) Samples.is_even))
           eq_refl (Some Samples.is_even)).
Defined.

(** ** ForEachChunk *)

Section ProcessorFacts.

Variables In E S : Type.

Abbreviation gor := (goroutine In E).
Abbreviation mach := (machine In E S).

Lemma total_app (f : gor -> nat) (gs1 gs2 : list gor) :
  total f (gs1 ++ gs2) = (total f gs1 + total f gs2)%nat.
Proof.
  induction gs1 as [|g gs1 IH]; simpl; [reflexivity|]. rewrite IH. lia.
Qed.

Lemma errors_in_app (done : list (slice In * error E)) (c : slice In) (err : error E) :
  errors_in (done ++ [(c, err)]) =
  errors_in done ++ match err with Some e => [e] | None => [] end.
Proof.
  unfold errors_in, non_nil. rewrite map_app, flat_map_app. simpl.
  now rewrite app_nil_r.
Qed.

Lemma in_errors_in (e : E) (done : list (slice In * error E)) :
  List.In e (errors_in done) <-> exists c, List.In (c, Some e) done.
Proof.
  unfold errors_in. rewrite in_non_nil, in_map_iff. split.
  - intros ([c err] & Herr & Hin). simpl in Herr. subst err. eauto.
  - intros (c & Hin). exists (c, Some e). auto.
Qed.

(** Every action keeps the machine consistent. *)
Lemma step_consistent (handler : option (handler_fn In E S)) (concurrency cap : Z)
    (chunks : list (slice In)) (ch : choice) (m m' : mach) :
  consistent chunks m ->
  step handler concurrency cap ch m = Some (Ok m') ->
  consistent chunks m'.
Proof.
  intros [Hc He Hw Hs] Hstep. destruct ch as [|g]; simpl in Hstep.
  - destruct (pending m) as [|c rest] eqn:Hp; [discriminate|].
    destruct (sem m <? concurrency); [|discriminate]. injection Hstep as <-.
    constructor; simpl.
    + unfold started_chunks in *. rewrite flat_map_app. simpl.
      rewrite Hc. apply perm_start.
    + unfold unsent in *. rewrite flat_map_app. simpl. now rewrite app_nil_r.
    + rewrite Hw, llen_app. reflexivity.
    + rewrite Hs, total_app. simpl. lia.
  - destruct (nth_error (goroutines m) g) as [x|] eqn:Hg; [|discriminate].
    pose proof (nth_error_cut _ _ Hg) as Hcut.
    unfold replace_nth, remove_nth in Hstep.
    set (pre := firstn g (goroutines m)) in *.
    set (post := skipn (Datatypes.S g) (goroutines m)) in *.
    rewrite Hcut in Hc, He, Hw, Hs.
    unfold started_chunks, unsent in *.
    rewrite flat_map_app in Hc, He. rewrite total_app in Hs. rewrite llen_app in Hw.
    simpl in Hc, He, Hs.
    destruct x as [c|[e|]| |].
    + destruct handler as [f|]; simpl in Hstep; [|discriminate].
      destruct (f (shared m) c) as [s' err]. injection Hstep as <-.
      constructor; simpl; unfold started_chunks, unsent.
      * rewrite flat_map_app, map_app. simpl. rewrite Hc. apply perm_return.
      * rewrite flat_map_app, errors_in_app. simpl.
        destruct err as [e|]; simpl.
        -- apply perm_fail. exact He.
        -- rewrite app_nil_r. exact He.
      * rewrite Hw, llen_app. reflexivity.
      * rewrite Hs, total_app. reflexivity.
    + destruct (llen (errChan m) <? cap); [|discriminate]. injection Hstep as <-.
      constructor; simpl; unfold started_chunks, unsent.
      * rewrite flat_map_app. simpl. exact Hc.
      * rewrite flat_map_app. simpl. rewrite He. apply perm_send.
      * rewrite Hw, llen_app. reflexivity.
      * rewrite Hs, total_app. reflexivity.
    + injection Hstep as <-.
      constructor; simpl; unfold started_chunks, unsent.
      * rewrite flat_map_app. simpl. exact Hc.
      * rewrite flat_map_app. simpl. exact He.
      * rewrite Hw, llen_app. reflexivity.
      * rewrite Hs, total_app. reflexivity.
    + destruct (0 <? sem m); [|discriminate]. injection Hstep as <-.
      constructor; simpl; unfold started_chunks, unsent.
      * rewrite flat_map_app. simpl. exact Hc.
      * rewrite flat_map_app. simpl. exact He.
      * rewrite Hw, llen_app. reflexivity.
      * rewrite Hs, total_app. simpl. lia.
    + destruct (0 <? wg m); [|discriminate]. injection Hstep as <-.
      constructor; simpl; unfold started_chunks, unsent.
      * rewrite flat_map_app. exact Hc.
      * rewrite flat_map_app. exact He.
      * rewrite Hw, !llen_app. unfold llen. simpl. lia.
      * rewrite Hs, total_app. reflexivity.
Qed.

(** Every action uses up one of the actions left, so no run goes on for
    ever. *)
Lemma step_decreases (handler : option (handler_fn In E S)) (concurrency cap : Z)
    (ch : choice) (m m' : mach) :
  step handler concurrency cap ch m = Some (Ok m') ->
  steps_left m = Datatypes.S (steps_left m').
Proof.
  intros Hstep. unfold steps_left. destruct ch as [|g]; simpl in Hstep.
  - destruct (pending m) as [|c rest] eqn:Hp; [discriminate|].
    destruct (sem m <? concurrency); [|discriminate]. injection Hstep as <-.
    simpl. rewrite total_app. simpl. lia.
  - destruct (nth_error (goroutines m) g) as [x|] eqn:Hg; [|discriminate].
    pose proof (nth_error_cut _ _ Hg) as Hcut.
    unfold replace_nth, remove_nth in Hstep.
    set (pre := firstn g (goroutines m)) in *.
    set (post := skipn (Datatypes.S g) (goroutines m)) in *.
    rewrite Hcut, total_app. simpl.
    destruct x as [c|[e|]| |].
    + destruct handler as [f|]; simpl in Hstep; [|discriminate].
      destruct (f (shared m) c) as [s' err]. injection Hstep as <-.
      simpl. rewrite total_app. simpl. lia.
    + destruct (llen (errChan m) <? cap); [|discriminate]. injection Hstep as <-.
      simpl. rewrite total_app. simpl. lia.
    + injection Hstep as <-. simpl. rewrite total_app. simpl. lia.
    + destruct (0 <? sem m); [|discriminate]. injection Hstep as <-.
      simpl. rewrite total_app. simpl. lia.
    + destruct (0 <? wg m); [|discriminate]. injection Hstep as <-.
      simpl. rewrite total_app. lia.
Qed.

Lemma errors_in_length (done : list (slice In * error E)) :
  (length (errors_in done) <= length done)%nat.
Proof.
  induction done as [|[c [e|]] done IH]; unfold errors_in in *; simpl in *; lia.
Qed.

(** With a handler, a consistent machine never crashes ... *)
Lemma step_no_panic (f : handler_fn In E S) (concurrency cap : Z)
    (chunks : list (slice In)) (ch : choice) (m : mach) (r : runtime_error) :
  consistent chunks m ->
  step (Some f) concurrency cap ch m <> Some (Panic r).
Proof.
  intros [Hc He Hw Hs] Hstep. destruct ch as [|g]; simpl in Hstep.
  - destruct (pending m); [discriminate|].
    destruct (sem m <? concurrency); discriminate.
  - destruct (nth_error (goroutines m) g) as [x|] eqn:Hg; [|discriminate].
    destruct x as [c|[e|]| |].
    + destruct (f (shared m) c). discriminate.
    + destruct (llen (errChan m) <? cap); discriminate.
    + discriminate.
    + destruct (0 <? sem m); discriminate.
    + assert (Hpos : 0 < wg m).
      { rewrite Hw. destruct (goroutines m); [destruct g; discriminate|].
        unfold llen. simpl. lia. }
      apply Z.ltb_lt in Hpos. rewrite Hpos in Hstep. discriminate.
Qed.

(** ... and is never blocked before [wg.Wait()] returns: there is no
    deadlock. *)
Lemma step_enabled (f : handler_fn In E S) (concurrency : Z)
    (chunks : list (slice In)) (m : mach) :
  consistent chunks m ->
  1 <= concurrency ->
  wait_and_return m = None ->
  exists ch m', step (Some f) concurrency (llen chunks) ch m = Some (Ok m').
Proof.
  intros [Hc He Hw Hs] Hconc Hwait.
  destruct (goroutines m) as [|g gs] eqn:Hgs.
  - exists Main. unfold wait_and_return in Hwait. simpl.
    destruct (pending m) as [|c rest].
    + rewrite Hw in Hwait. discriminate.
    + simpl in Hs. rewrite Hs.
      replace (0 <? concurrency) with true by (symmetry; apply Z.ltb_lt; lia).
      eauto.
  - exists (Go 0). simpl. rewrite Hgs. simpl.
    destruct g as [c|[e|]| |].
    + destruct (f (shared m) c). eauto.
    + assert (Hroom : llen (errChan m) < llen chunks).
      { apply Permutation_length in Hc, He.
        pose proof (errors_in_length (returned_calls m)) as Hle.
        rewrite !length_app in Hc. rewrite length_app in He.
        unfold unsent in He. simpl in He. rewrite length_map in Hc.
        unfold llen. lia. }
      apply Z.ltb_lt in Hroom. rewrite Hroom. eauto.
    + eauto.
    + assert (Hpos : 0 < sem m) by (rewrite Hs; simpl; lia).
      apply Z.ltb_lt in Hpos. rewrite Hpos. eauto.
    + assert (Hpos : 0 < wg m) by (rewrite Hw; unfold llen; simpl; lia).
      apply Z.ltb_lt in Hpos. rewrite Hpos. eauto.
Qed.

Lemma wait_and_return_ok (m : mach) (p : processed In E S) :
  wait_and_return m = Some p -> exists e, outcome p = Ok e.
Proof.
  unfold wait_and_return. destruct (pending m); [|discriminate].
  destruct (wg m =? 0); [|discriminate].
  intros H. injection H as <-. simpl. eauto.
Qed.

(** From every consistent machine some schedule completes the run. *)
Lemma run_completes (f : handler_fn In E S) (concurrency : Z) (chunks : list (slice In)) :
  1 <= concurrency ->
  forall (n : nat) (m : mach),
    steps_left m = n ->
    consistent chunks m ->
    exists sched p e,
      concurrent (Some f) concurrency (llen chunks) sched m = Some p /\
      outcome p = Ok e.
Proof.
  intros Hconc. induction n as [|n IH]; intros m Hn Hm.
  - destruct (wait_and_return m) as [p|] eqn:Hwait.
    + destruct (wait_and_return_ok m Hwait) as [e He].
      exists [], p, e. simpl. auto.
    + destruct (step_enabled f Hm Hconc Hwait) as (ch & m' & Hstep).
      apply step_decreases in Hstep. lia.
  - destruct (wait_and_return m) as [p|] eqn:Hwait.
    + destruct (wait_and_return_ok m Hwait) as [e He].
      exists [], p, e. simpl. auto.
    + destruct (step_enabled f Hm Hconc Hwait) as (ch & m' & Hstep).
      pose proof (step_decreases _ _ _ _ _ Hstep) as Hdec.
      destruct (IH m') as (sched & p & e & Hrun & Hout).
      * lia.
      * eapply step_consistent; eassumption.
      * exists (ch :: sched), p, e. simpl. rewrite Hstep. auto.
Qed.

(** A complete run that returns has handled every chunk exactly once, has
    no goroutine left, and returns the head of the channel, which holds
    the errors the handler returned. *)
Lemma run_final (handler : option (handler_fn In E S)) (concurrency cap : Z)
    (chunks : list (slice In)) :
  forall (sched : list choice) (m : mach) (p : processed In E S) (e : error E),
    consistent chunks m ->
    concurrent handler concurrency cap sched m = Some p ->
    outcome p = Ok e ->
    Permutation chunks (map fst (calls p)) /\
    running p = [] /\
    exists chan, e = hd_error chan /\ Permutation (errors_in (calls p)) chan.
Proof.
  induction sched as [|ch sched IH]; intros m p e Hm Hrun Hout; simpl in Hrun.
  - destruct Hm as [Hc He Hw Hs]. unfold wait_and_return in Hrun.
    destruct (pending m) eqn:Hp; [|discriminate].
    destruct (wg m =? 0) eqn:Hwg; [|discriminate].
    injection Hrun as <-. simpl in *. injection Hout as <-.
    apply Z.eqb_eq in Hwg. rewrite Hw in Hwg. apply llen_zero in Hwg.
    rewrite Hwg in *. simpl in *. rewrite app_nil_r in He.
    split; [exact Hc|]. split; [reflexivity|]. eauto.
  - destruct (step handler concurrency cap ch m) as [[m'|r]|] eqn:Hstep;
      [|injection Hrun as <-; discriminate|discriminate].
    eapply IH; [|eassumption..].
    eapply step_consistent; eassumption.
Qed.

Lemma run_no_panic (f : handler_fn In E S) (concurrency cap : Z)
    (chunks : list (slice In)) :
  forall (sched : list choice) (m : mach) (p : processed In E S),
    consistent chunks m ->
    concurrent (Some f) concurrency cap sched m = Some p ->
    exists e, outcome p = Ok e.
Proof.
  induction sched as [|ch sched IH]; intros m p Hm Hrun; simpl in Hrun.
  - unfold wait_and_return in Hrun.
    destruct (pending m); [|discriminate].
    destruct (wg m =? 0); [|discriminate].
    injection Hrun as <-. simpl. eauto.
  - destruct (step (Some f) concurrency cap ch m) as [[m'|r]|] eqn:Hstep.
    + eapply IH; [|eassumption]. eapply step_consistent; eassumption.
    + exfalso. eapply step_no_panic; eassumption.
    + discriminate.
Qed.

Lemma initial_consistent (chunks : list (slice In)) (s : S) :
  consistent chunks (mkMachine (E := E) chunks 0 0 [] [] s []).
Proof.
  constructor; simpl; try reflexivity. now rewrite app_nil_r.
Qed.

(** The sequential loop calls the handler on the chunks in order and stops
    at the first error. *)
Lemma sequential_calls (handler : option (handler_fn In E S)) :
  forall (chunks : list (slice In)) (s : S) (done : list (slice In * error E)),
    let p := sequential handler chunks s done in
    running p = [] /\
    exists new,
      calls p = done ++ new /\
      map fst new = firstn (length new) chunks /\
      (forall e, outcome p = Ok (Some e) ->
                 exists before c, new = before ++ [(c, Some e)] /\
                 Forall (fun x => snd x = None) before) /\
                 (outcome p = Ok None ->
       map fst new = chunks /\ Forall (fun x => snd x = None) new) /\
       (forall r, outcome p = Panic r -> handler = None /\ new = []) /\
       (handler = None -> chunks <> [] -> outcome p = Panic NilFuncCall) /\
       (handler <> None -> chunks <> [] -> new <> []).
Proof.
  induction chunks as [|c chunks IH]; intros s done p; subst p; simpl.
  - split; [reflexivity|]. exists []. rewrite app_nil_r.
    repeat split; try reflexivity; try discriminate; try constructor; congruence.
  - destruct handler as [f|]; simpl.
    + destruct (f s c) as [s' [e|]] eqn:Hf; simpl.
      * split; [reflexivity|]. exists [(c, Some e)].
        repeat split; try reflexivity; try discriminate.
        intros e' He'. injection He' as <-. exists [], c. split; [reflexivity|constructor].
      * destruct (IH s' (done ++ [(c, None)])) as (Hrun & new & Hcalls & Hfst & Hsome & Hnone & Hpanic & _ & _).
        split; [exact Hrun|]. exists ((c, None) :: new).
        split; [rewrite Hcalls, <- app_assoc; reflexivity|].
        split; [simpl; now rewrite Hfst at 1|].
        split.
        { intros e He. destruct (Hsome e He) as (before & c' & -> & Hall).
          exists ((c, None) :: before), c'. split; [reflexivity|].
          constructor; [reflexivity | exact Hall]. }
        split.
        { intros Ho. destruct (Hnone Ho) as [H1 H2]. simpl. rewrite H1.
          split; [reflexivity|]. constructor; [reflexivity | exact H2]. }
        split.
        { intros r Hr. destruct (Hpanic r Hr) as [Hh _]. discriminate. }
        split; [discriminate|]. intros _ _. discriminate.
    + split; [reflexivity|]. exists []. rewrite app_nil_r.
      repeat split; try reflexivity; try discriminate; try congruence.
Qed.

End ProcessorFacts.

Section ProcessorClaims.

Variables In E S : Type.

Lemma Chunk_of_empty (input : slice In) (size : Z) (chunks : slice (slice In)) :
  len input = 0 -> Chunk input size = Ok chunks -> elems chunks = [].
Proof.
  intros Hlen Hc. destruct input as [|l]; simpl in Hc.
  - injection Hc as <-. reflexivity.
  - unfold len in Hlen. simpl in Hlen. apply Z.eqb_eq in Hlen. rewrite Hlen in Hc.
    injection Hc as <-. reflexivity.
Qed.



(** C1, as the code has it. With [concurrency > 1] every complete run
    invokes the handler on every chunk exactly once, whatever the
    invocations return. With [concurrency <= 1] the handler is invoked on
    the chunks in order up to the first invocation that returns an error,
    which ends the call, and on all of them when none does. *)
Theorem ForEachChunk_visits (sched : list choice) (input : slice In)
    (chunkSize concurrency : Z) (handler : handler_fn In E S) (s : S)
    (p : processed In E S) (chunks : slice (slice In)) :
  ForEachChunk sched input chunkSize concurrency (Some handler) s = Some p ->
  Chunk input chunkSize = Ok chunks ->
  (1 < concurrency -> Permutation (elems chunks) (map fst (calls p))) /\
  (concurrency <= 1 ->
   map fst (calls p) = firstn (length (calls p)) (elems chunks) /\
   (forall e, outcome p = Ok (Some e) ->
              exists before c, calls p = before ++ [(c, Some e)] /\
                               Forall (fun x => snd x = None) before) /\
   (outcome p = Ok None ->
    map fst (calls p) = elems chunks /\ Forall (fun x => snd x = None) (calls p))).
Proof.
  intros Hrun Hchunk. unfold ForEachChunk in Hrun.
  destruct (len input =? 0) eqn:Hlen.
  - apply Z.eqb_eq in Hlen. rewrite (@Chunk_of_empty input chunkSize chunks Hlen Hchunk).
    injection Hrun as <-. simpl.
    split; [constructor|]. intros _. split; [reflexivity|]. split.
    + intros e He. discriminate.
    + intros _. split; [reflexivity | constructor].
  - rewrite Hchunk in Hrun. destruct (concurrency <=? 1) eqn:Hconc.
    + apply Z.leb_le in Hconc. split; [lia|]. intros _.
      injection Hrun as <-.
      destruct (sequential_calls (Some handler) (elems chunks) s [])
        as (_ & new & Hcalls & Hfst & Hsome & Hnone & _).
      simpl in Hcalls. rewrite Hcalls. auto.
    + apply Z.leb_gt in Hconc. split; [|lia]. intros _.
      pose proof (initial_consistent E (elems chunks) s) as Hinit.
      destruct (run_no_panic handler concurrency (len chunks) sched Hinit Hrun) as [e He].
      eapply run_final; eassumption.
Qed.

(** C8. When its chunks can be made, [ForEachChunk] with a handler
    returns; and whenever it returns, the error is non-nil exactly when
    some handler invocation returned a non-nil error, and no goroutine it
    started is still running. *)
Theorem ForEachChunk_error_iff (input : slice In) (chunkSize concurrency : Z) (s : S) :
  (forall (handler : handler_fn In E S) chunks,
     Chunk input chunkSize = Ok chunks ->
     exists sched p e,
       ForEachChunk sched input chunkSize concurrency (Some handler) s = Some p /\
       outcome p = Ok e) /\
  (forall sched (handler : option (handler_fn In E S)) p e,
     ForEachChunk sched input chunkSize concurrency handler s = Some p ->
     outcome p = Ok e ->
     (e <> None <-> exists c e', List.In (c, Some e') (calls p)) /\
     running p = []).
Proof.
  split.
  - intros handler chunks Hchunk. unfold ForEachChunk. rewrite Hchunk.
    destruct (len input =? 0); [exists [], (mkProcessed (Ok None) s [] []), None; auto|].
    destruct (concurrency <=? 1) eqn:Hconc.
    + exists [], (sequential (Some handler) (elems chunks) s []).
      destruct (sequential_calls (Some handler) (elems chunks) s [])
        as (_ & new & _ & _ & _ & _ & Hpanic & _).
      destruct (outcome (sequential (Some handler) (elems chunks) s [])) as [e|r] eqn:Ho.
      * exists e. auto.
      * destruct (Hpanic r eq_refl) as [Hh _]. discriminate.
    + apply Z.leb_gt in Hconc.
      apply (run_completes handler (chunks := elems chunks)) with (n := steps_left
        (mkMachine (E := E) (elems chunks) 0 0 [] [] s [])); [lia | reflexivity |].
      apply initial_consistent.
  - intros sched handler p e Hrun Hout. unfold ForEachChunk in Hrun.
    destruct (len input =? 0).
    { injection Hrun as <-. simpl in *. injection Hout as <-.
      split; [|reflexivity]. split; [congruence|]. intros (c & e' & []). }
    destruct (Chunk input chunkSize) as [chunks|r].
    2:{ injection Hrun as <-. discriminate. }
    destruct (concurrency <=? 1).
    + injection Hrun as <-.
      destruct (sequential_calls handler (elems chunks) s [])
        as (Hrunning & new & Hcalls & _ & Hsome & Hnone & _).
      simpl in Hcalls. rewrite Hcalls. split; [|exact Hrunning].
      destruct e as [e|].
      * split; [|discriminate]. intros _.
        destruct (Hsome e Hout) as (before & c & -> & _).
        exists c, e. apply in_or_app. right. left. reflexivity.
      * split; [congruence|]. intros (c & e' & Hin).
        destruct (Hnone Hout) as [_ Hall]. rewrite Forall_forall in Hall.
        apply Hall in Hin. discriminate.
    + pose proof (initial_consistent E (elems chunks) s) as Hinit.
      destruct (run_final handler concurrency (len chunks) sched Hinit Hrun Hout)
        as (_ & Hrunning & chan & -> & Hperm).
      split; [|exact Hrunning]. split.
      * intros Hne. destruct chan as [|e chan]; [contradiction|].
        assert (Hin : List.In e (errors_in (calls p)))
          by (eapply Permutation_in; [symmetry; exact Hperm | left; reflexivity]).
        apply in_errors_in in Hin. destruct Hin as [c Hin]. eauto.
      * intros (c & e' & Hin).
        assert (Hin' : List.In e' chan).
        { eapply Permutation_in; [exact Hperm|]. apply in_errors_in. eauto. }
        destruct chan; [contradiction | discriminate].
Qed.

End ProcessorClaims.

Section NilHandler.

Variables In E S : Type.
Variables Out P S' : Type.
Variable zero : Out.


End NilHandler.

(** C1 as it is written fails in the sequential mode: with two chunks and a
    handler that fails on the first, the second chunk is never handled. *)
Lemma ForEachChunk_sequential_stops_early :
  ~ every_chunk_once [] (Slice [1; 2]) 1 1 Samples.fail_always tt.
Proof.
  intros H.
  specialize (H (mkProcessed (Ok (Some 7%nat)) tt [(Slice [1], Some 7%nat)] [])
                (Slice [Slice [1]; Slice [2]]) eq_refl eq_refl).
  apply Permutation_length in H. discriminate.
Qed.

Lemma ForEachChunk_visits_witness :
  let concurrent_run :=
    mkProcessed (Ok (Some 7%nat)) tt
      [(Slice [5; 6], Some 7%nat); (Slice [7], None)] [] in
  ForEachChunk Samples.one_after_the_other (Slice [5; 6; 7]) 2 2
    (Some Samples.fail_at_five) tt = Some concurrent_run /\
  Permutation [Slice [5; 6]; Slice [7]] (map fst (calls concurrent_run)) /\
  ForEachChunk [] (Slice [5; 6; 7]) 2 1 (Some Samples.fail_at_five) tt =
    Some (mkProcessed (Ok (Some 7%nat)) tt [(Slice [5; 6], Some 7%nat)] []).
Proof.
  intros concurrent_run. split; [reflexivity|]. split; [|reflexivity].
  apply (@ForEachChunk_visits Z nat unit Samples.one_after_the_other (Slice [5; 6; 7]) 2 2
           Samples.fail_at_five tt concurrent_run (Slice [Slice [5; 6]; Slice [7]])
           eq_refl eq_refl).
  lia.
Defined.

Lemma ForEachChunk_error_iff_witness :
  let p := mkProcessed (Ok (Some 7%nat)) tt
             [(Slice [7], None); (Slice [5; 6], Some 7%nat)] (@nil (goroutine Z nat)) in
  ForEachChunk Samples.taking_turns (Slice [5; 6; 7]) 2 2
    (Some Samples.fail_at_five) tt = Some p /\
  (exists c e', List.In (c, Some e') (calls p)) /\
  running p = [].
Proof.
  intros p.
  assert (Hrun : ForEachChunk Samples.taking_turns (Slice [5; 6; 7]) 2 2
                   (Some Samples.fail_at_five) tt = Some p) by reflexivity.
  split; [exact Hrun|].
  destruct (proj2 (@ForEachChunk_error_iff Z nat unit (Slice [5; 6; 7]) 2 2 tt)
              Samples.taking_turns (Some Samples.fail_at_five) p (Some 7%nat)
              Hrun eq_refl) as [Hiff Hnone].
  split; [apply Hiff; discriminate | exact Hnone].
Defined.


(** * Further properties of the package *)

(** ** Reduce, Every, Some, Map, Find and Contains *)

Section FoldFacts.

Variables In Mid Out : Type.

Lemma Reduce_fold (input : slice In) (f : Out -> In -> Out) (initial : Out) :
  Reduce input (Some f) initial = fold_left f (elems input) initial.
Proof.
  unfold Reduce. destruct (len input =? 0) eqn:Hlen; [|reflexivity].
  apply Z.eqb_eq in Hlen. unfold len in Hlen. apply llen_zero in Hlen.
  now rewrite Hlen.
Qed.

(** X1. Reducing a concatenation is reducing its second part from the
    result of the first, also when a part is empty; without a reducer
    [Reduce] returns the initial value. *)
Theorem Reduce_append (xs ys : list In) (f : Out -> In -> Out) (initial : Out) :
  Reduce (Slice (xs ++ ys)) (Some f) initial =
    Reduce (Slice ys) (Some f) (Reduce (Slice xs) (Some f) initial) /\
  Reduce (Slice (xs ++ ys)) None initial = initial.
Proof.
  split; [|unfold Reduce; destruct (len (Slice (xs ++ ys)) =? 0); reflexivity].
  rewrite !Reduce_fold. simpl. apply fold_left_app.
Qed.

Lemma every_loop_forall (p : In -> bool) (l : list In) :
  every_loop p l = true <-> (forall x, List.In x l -> p x = true).
Proof.
  induction l as [|a l IH]; simpl.
  - split; [intros _ x [] | reflexivity].
  - destruct (p a) eqn:Ha; simpl.
    + rewrite IH. split.
      * intros H x [<-|Hx]; auto.
      * intros H x Hx. apply H. now right.
    + split; [discriminate|]. intros H. rewrite <- Ha. apply H. now left.
Qed.

Lemma some_loop_exists (p : In -> bool) (l : list In) :
  some_loop p l = true <-> (exists x, List.In x l /\ p x = true).
Proof.
  induction l as [|a l IH]; simpl.
  - split; [discriminate | intros (x & [] & _)].
  - destruct (p a) eqn:Ha.
    + split; [|reflexivity]. intros _. exists a. auto.
    + rewrite IH. split.
      * intros (x & Hx & Hp). exists x. auto.
      * intros (x & [<-|Hx] & Hp); [congruence|]. exists x. auto.
Qed.

Lemma some_loop_every_loop (p : In -> bool) (l : list In) :
  some_loop p l = negb (every_loop (fun x => negb (p x)) l).
Proof.
  induction l as [|a l IH]; simpl; [reflexivity|].
  destruct (p a); simpl; [reflexivity | exact IH].
Qed.

(** X2. With a predicate, [Every] holds exactly when every element passes
    and [Some] exactly when some element does, so [Some] is the negation of
    [Every] on the negated predicate; without a predicate [Every] is true
    and [Some] is false, whatever the input. *)
Theorem Every_Some_quantify (input : slice In) (p : In -> bool) :
  (Every input (Some p) = true <-> forall x, List.In x (elems input) -> p x = true) /\
  (Some_ input (Some p) = true <-> exists x, List.In x (elems input) /\ p x = true) /\
  Some_ input (Some p) = negb (Every input (Some (fun x => negb (p x)))) /\
  Every input None = true /\ Some_ input None = false.
Proof.
  assert (Hsome : Some_ input (Some p) = some_loop p (elems input)).
  { unfold Some_. destruct (len input =? 0) eqn:Hlen; [|reflexivity].
    apply Z.eqb_eq in Hlen. unfold len in Hlen. apply llen_zero in Hlen.
    now rewrite Hlen. }
  split; [apply every_loop_forall|].
  split; [rewrite Hsome; apply some_loop_exists|].
  split; [rewrite Hsome; apply some_loop_every_loop|].
  split; [reflexivity|].
  unfold Some_. destruct (len input =? 0); reflexivity.
Qed.

Lemma cut_middle (A : Type) (done : list A) (old : A) (rest : list A) :
  firstn (length done) (done ++ old :: rest) = done /\
  skipn (Datatypes.S (length done)) (done ++ old :: rest) = rest.
Proof.
  induction done as [|a done [IH1 IH2]]; simpl; [split; reflexivity|].
  rewrite IH1. split; [reflexivity | exact IH2].
Qed.

Lemma assign_middle (A : Type) (done : list A) (old v : A) (rest : list A) :
  assign (done ++ old :: rest) (llen done) v = Ok (done ++ v :: rest).
Proof.
  unfold assign.
  replace ((llen done <? 0) || (llen (done ++ old :: rest) <=? llen done)) with false.
  - unfold llen. rewrite Nat2Z.id.
    destruct (cut_middle done old rest) as [-> ->]. reflexivity.
  - symmetry. apply orb_false_iff. rewrite llen_app. unfold llen. simpl.
    split; [apply Z.ltb_ge | apply Z.leb_gt]; lia.
Qed.

(** The loop of [Map] fills the result from the left and never assigns
    outside it. *)
Lemma map_loop_fills (f : In -> Out) (zero : Out) :
  forall (rest : list In) (done : list Out),
    map_loop f rest (llen done) (done ++ repeat zero (length rest)) =
      Ok (done ++ map f rest).
Proof.
  induction rest as [|item rest IH]; intros done; simpl.
  - reflexivity.
  - rewrite assign_middle. simpl.
    replace (llen done + 1) with (llen (done ++ [f item]))
      by (rewrite llen_app; reflexivity).
    replace (done ++ f item :: repeat zero (length rest))
      with ((done ++ [f item]) ++ repeat zero (length rest))
      by (now rewrite <- app_assoc).
    rewrite IH, <- app_assoc. reflexivity.
Qed.

Lemma Map_map (zero : Out) (input : slice In) (f : In -> Out) :
  Map zero input (Some f) =
    Ok (if len input =? 0 then Nil else Slice (map f (elems input))).
Proof.
  unfold Map. destruct (len input =? 0); [reflexivity|].
  pose proof (map_loop_fills f zero (elems input) []) as H.
  change (llen (@nil Out)) with 0 in H. simpl in H. rewrite H. reflexivity.
Qed.

End FoldFacts.

Section MapFacts.

Variables In Mid Out : Type.

(** X3. [Map] never panics. On a non-empty input it returns a non-nil slice
    with the images of the elements, in order; on an empty input, nil or
    not, and without a mapper it returns nil. Mapping twice is mapping with
    the composed function. *)
Theorem Map_images (zeroM : Mid) (zeroO : Out) (input : slice In)
    (f : In -> Mid) (g : Mid -> Out) :
  Map zeroM input (Some f) =
    Ok (if len input =? 0 then Nil else Slice (map f (elems input))) /\
    Map zeroM input None = Ok Nil /\
    bind (Map zeroM input (Some f)) (fun mid => Map zeroO mid (Some g)) =
    Map zeroO input (Some (fun x => g (f x))).
Proof.
  split; [apply Map_map|].
  split; [unfold Map; destruct (len input =? 0); reflexivity|].
  rewrite !Map_map. simpl. rewrite Map_map.
  destruct (len input =? 0) eqn:Hlen; [reflexivity|].
  unfold len. simpl.
  replace (llen (map f (elems input)) =? 0) with false.
  - now rewrite map_map.
  - unfold len, llen in *. rewrite length_map. now rewrite Hlen.
Qed.

End MapFacts.

Section FindFacts.

Variable In : Type.

Lemma find_loop_first (p : In -> bool) (l : list In) :
  match find_loop p l with
  | Some x => exists pre post,
                l = pre ++ x :: post /\ p x = true /\
                forall y, List.In y pre -> p y = false
  | None => forall y, List.In y l -> p y = false
  end.
Proof.
  induction l as [|a l IH]; simpl.
  - intros y [].
  - destruct (p a) eqn:Ha.
    + exists [], l. split; [reflexivity|]. split; [exact Ha|]. intros y [].
    + destruct (find_loop p l) as [x|].
      * destruct IH as (pre & post & -> & Hx & Hpre).
        exists (a :: pre), post. split; [reflexivity|]. split; [exact Hx|].
        intros y [<-|Hy]; auto.
      * intros y [<-|Hy]; auto.
Qed.

Lemma find_loop_some_loop (p : In -> bool) (l : list In) :
  some_loop p l = match find_loop p l with Some _ => true | None => false end.
Proof.
  induction l as [|a l IH]; simpl; [reflexivity|].
  destruct (p a); [reflexivity | exact IH].
Qed.

(** X4. With a predicate, [Find] returns the first element that passes,
    with true, and the zero value with false exactly when no element
    passes; its flag is the result of [Some]. Without a predicate it
    returns the zero value and false. *)
Theorem Find_first (zero : In) (input : slice In) (p : In -> bool) :
  (forall x, Find zero input (Some p) = (x, true) ->
     exists pre post,
       elems input = pre ++ x :: post /\ p x = true /\
       forall y, List.In y pre -> p y = false) /\
  ((forall y, List.In y (elems input) -> p y = false) <->
   Find zero input (Some p) = (zero, false)) /\
  snd (Find zero input (Some p)) = Some_ input (Some p) /\
  Find zero input None = (zero, false).
Proof.
  assert (Hfind : Find zero input (Some p) =
                  match find_loop p (elems input) with
                  | Some item => (item, true)
                  | None => (zero, false)
                  end).
  { unfold Find. destruct (len input =? 0) eqn:Hlen; [|reflexivity].
    apply Z.eqb_eq in Hlen. unfold len in Hlen. apply llen_zero in Hlen.
    now rewrite Hlen. }
  assert (Hsome : Some_ input (Some p) = some_loop p (elems input)).
  { unfold Some_. destruct (len input =? 0) eqn:Hlen; [|reflexivity].
    apply Z.eqb_eq in Hlen. unfold len in Hlen. apply llen_zero in Hlen.
    now rewrite Hlen. }
  pose proof (find_loop_first p (elems input)) as Hfirst.
  rewrite Hfind, Hsome, find_loop_some_loop.
  destruct (find_loop p (elems input)) as [item|].
  - split; [|split; [|split]].
    + intros x Hx. injection Hx as <-. exact Hfirst.
    + destruct Hfirst as (pre & post & Heq & Hp & _). split.
      * intros Hnone. rewrite Hnone in Hp; [discriminate|].
        rewrite Heq. apply in_or_app. right. left. reflexivity.
      * discriminate.
    + reflexivity.
    + unfold Find. destruct (len input =? 0); reflexivity.
  - split; [|split; [|split]].
    + discriminate.
    + split; [reflexivity | intros _; exact Hfirst].
    + reflexivity.
    + unfold Find. destruct (len input =? 0); reflexivity.
Qed.

(** X5. When [==] decides equality on the element type, [Contains] is true
    exactly when the target is an element of the input, and it is [Some]
    with the predicate "equal to the target". *)
Theorem Contains_member (eqb : In -> In -> bool) (input : slice In) (target : In) :
  (forall a b, eqb a b = true <-> a = b) ->
  (Contains eqb input target = true <-> List.In target (elems input)) /\
  Contains eqb input target = Some_ input (Some (fun item => eqb item target)).
Proof.
  intros Heqb.
  assert (Hloop : forall l, contains_loop eqb l target =
                            some_loop (fun item => eqb item target) l).
  { induction l as [|a l IH]; simpl; [reflexivity|]. now rewrite IH. }
  assert (Hsame : Contains eqb input target =
                  Some_ input (Some (fun item => eqb item target))).
  { unfold Contains, Some_. destruct (len input =? 0); [reflexivity | apply Hloop]. }
  split; [|exact Hsame].
  unfold Contains. destruct (len input =? 0) eqn:Hlen.
  { apply Z.eqb_eq in Hlen. unfold len in Hlen. apply llen_zero in Hlen.
    rewrite Hlen. split; [discriminate | intros []]. }
  rewrite Hloop, some_loop_exists. split.
  - intros (x & Hx & He). apply Heqb in He. now subst.
  - intros Hin. exists target. split; [exact Hin | now apply Heqb].
Qed.

End FindFacts.

Lemma Contains_member_witness :
  Contains Z.eqb (Slice [1; 2; 3]) 2 = true /\ Contains Z.eqb (Slice [1; 2; 3]) 4 = false.
Proof.
  split; [|reflexivity].
  exact (proj2 (proj1 (Contains_member Z.eqb (Slice [1; 2; 3]) 2 Z.eqb_eq))
           (or_intror (or_introl eq_refl))).
Defined.

(** ** Chunk and Flatten *)

Section ChunkMore.

Variable In : Type.

Lemma full_chunks_length (size : Z) (body : list (slice In)) :
  Forall (full_chunk size) body ->
  llen (concat (map (@elems In) body)) = llen body * size.
Proof.
  induction 1 as [|c body (l & -> & Hl) _ IH].
  - reflexivity.
  - cbn [map concat elems]. rewrite llen_app, IH, Hl.
    replace (llen (Slice l :: body)) with (1 + llen body)
      by (unfold llen; simpl length; lia).
    ring.
Qed.

(** X6. [Flatten] returns nil for nil and otherwise a non-nil slice holding
    the inner slices end to end, a nil inner slice counting as empty,
    provided the total length is an [int]. *)
Theorem Flatten_joins (ss : list (slice In)) :
  llen (concat (map (@elems In) ss)) <= GoInt.max_int ->
  Flatten (Slice ss) = Ok (Slice (concat (map (@elems In) ss))) /\
  Flatten (@Nil (slice In)) = Ok Nil.
Proof.
  intros Hfit. split; [|reflexivity].
  destruct ss as [|s ss]; [reflexivity|].
  apply Flatten_concat; [discriminate | exact Hfit].
Qed.

(** X7. On a non-empty input and a size for which [len(input)+size-1] is
    an [int], [Chunk] returns chunks of exactly the size followed by one
    last chunk that is not empty and not longer; there are as many chunks
    as the capacity it asked for, [(len(input)+size-1)/size], and [Flatten]
    gives the input back. *)
Theorem Chunk_count (l : list In) (size : Z) :
  l <> [] ->
  llen l + effective_size size - 1 <= GoInt.max_int ->
  exists body last,
    Chunk (Slice l) size = Ok (Slice (body ++ [Slice last])) /\
    Forall (full_chunk (effective_size size)) body /\
    0 < llen last <= effective_size size /\
    llen (body ++ [Slice last]) =
      GoInt.quot (GoInt.sub (GoInt.add (llen l) (effective_size size)) 1)
        (effective_size size) /\
    Flatten (Slice (body ++ [Slice last])) = Ok (Slice l).
Proof.
  intros Hne Hfit.
  destruct (Chunk_partitions size Hne Hfit) as (body & last & Hc & Hfull & Hlast & Hcat).
  exists body, last.
  assert (Hs : 1 <= effective_size size).
  { unfold effective_size. destruct (size <=? 0) eqn:Hsz; [lia|]. apply Z.leb_gt in Hsz. lia. }
  pose proof (llen_nonneg l) as Hl.
  pose proof (llen_nonneg body) as Hb.
  assert (Hsum : llen l = llen body * effective_size size + llen last).
  { rewrite <- Hcat at 1. rewrite llen_app.
    now rewrite (full_chunks_length Hfull). }
  split; [exact Hc|]. split; [exact Hfull|]. split; [exact Hlast|]. split.
  - rewrite GoIntFacts.cap_exact by assumption.
    rewrite Z.quot_div_nonneg by lia.
    rewrite llen_app. change (llen [Slice last]) with 1.
    apply Z.div_unique with (r := llen last - 1); [lia|].
    rewrite Hsum. ring.
  - assert (Hflat : concat (map (@elems In) (body ++ [Slice last])) = l).
    { rewrite map_app, concat_app. simpl. rewrite app_nil_r. exact Hcat. }
    rewrite Flatten_concat.
    + now rewrite Hflat.
    + destruct body; discriminate.
    + rewrite Hflat. lia.
Qed.

End ChunkMore.

Lemma Flatten_joins_witness :
  Flatten (Slice [Slice [1]; Nil; Slice []; Slice [2; 3]]) = Ok (Slice [1; 2; 3]) /\
  Flatten (Slice [@Nil Z; Slice []]) = Ok (Slice []).
Proof.
  split.
  - apply (Flatten_joins [Slice [1]; Nil; Slice []; Slice [2; 3]]).
    unfold llen, GoInt.max_int. simpl. lia.
  - reflexivity.
Defined.

Lemma Chunk_count_witness :
  exists body last,
    Chunk (Slice [1; 2; 3; 4; 5]) 2 = Ok (Slice (body ++ [Slice last])) /\
    llen (body ++ [Slice last]) = 3.
Proof.
  destruct (@Chunk_count Z [1; 2; 3; 4; 5] 2) as (body & last & Hc & _ & _ & Hn & _).
  - discriminate.
  - unfold llen, effective_size, GoInt.max_int. simpl. lia.
  - exists body, last. split; [exact Hc|]. rewrite Hn. reflexivity.
Defined.

(** ** Collect without the context object *)

Section ReplayFacts.

Variables In Out E P S : Type.
Variable zero : Out.

Abbreviation rctx := (collectorContextImpl In Out E).

Lemma sliceGetter_copy (input whole : list In) (c : rctx) :
  copy_of input whole c ->
  copied (sliceGetter input c) = Slice whole /\
  value_set (sliceGetter input c) = value_set c.
Proof.
  unfold sliceGetter. intros [[H ->]|H]; rewrite H; split; reflexivity || exact H.
Qed.

Lemma sliceGetter_clean (input : list In) (i : Z) (c : rctx) :
  clean i c -> clean i (sliceGetter input c).
Proof.
  unfold sliceGetter, clean. destruct (copied c); simpl; auto.
Qed.

(** One invocation against the context ends where [resolve] says, and
    leaves in the context the shared copy that [resolve] leaves. *)
Lemma call_resolves (input : list In) (result : slice Out) (s0 : S) (i : Z) (x : In)
    (p : step_fn In Out E P S) :
  index input i = Ok x ->
  forall (c : rctx) (whole : list In),
    clean i c -> copy_of input whole c ->
    let raw := call input result s0 p c in
    let en := ending_of input result p c in
    let r := resolve s0 whole i x (resultGetter result) p (value_set c) in
    value_set (left_ctx raw) = snd (fst r) /\
    copy_of input (snd r) (left_ctx raw) /\
    match fst (fst r) with
    | Return s => en = EReturn /\ left_closure raw = s
    | CallContinue s es => en = EContinue es /\ left_closure raw = s
    | CallStop s es => en = EStop es /\ left_closure raw = s
    | DoPanic s r => en = EPanic r /\ left_closure raw = s
    | _ => False
    end.
Proof.
  intros Hx.
  induction p as [s|k IH|j y k IH|k IH|v k IH|k IH|s errs|s errs|s r];
    intros c whole Hc Hcopy; simpl.
  - auto.
  - destruct (sliceGetter_copy Hcopy) as [Hwhole Hval].
    rewrite Hwhole, <- Hval.
    apply IH; [now apply sliceGetter_clean | right; exact Hwhole].
  - destruct (sliceGetter_copy Hcopy) as [Hwhole Hval].
    pose proof (sliceGetter_clean input Hc) as Hc'.
    rewrite Hwhole. simpl.
    destruct (store_at whole j y) as [l|r]; simpl.
    + rewrite <- Hval.
      change (value_set (sliceGetter input c))
        with (value_set (set_copied (Slice l) (sliceGetter input c))).
      apply IH; [exact Hc' | right; reflexivity].
    + rewrite Hval. split; [reflexivity|]. split; [right; exact Hwhole | auto].
  - destruct Hc as (H1 & H2 & H3 & H4 & H5).
    unfold elemGetter. rewrite H5, Hx.
    apply IH; [unfold clean; auto | exact Hcopy].
  - change (Some v) with (value_set (SetValue v c)).
    apply IH; [unfold clean, SetValue in *; simpl; exact Hc | exact Hcopy].
  - apply IH; assumption.
  - destruct Hc as (H1 & H2 & H3 & H4 & H5).
    unfold Continue. rewrite H5, H4, wrap_errs_ok with (x := x) by exact Hx.
    simpl. auto.
  - destruct Hc as (H1 & H2 & H3 & H4 & H5).
    unfold Stop. rewrite H5, H3, wrap_errs_ok with (x := x) by exact Hx.
    simpl. auto.
  - auto.
Qed.

Lemma recovered_copied (input whole : list In) (raw : left_in In Out E P S) :
  copy_of input whole (left_ctx raw) -> copy_of input whole (left_ctx (recovered raw)).
Proof.
  unfold recovered, copy_of.
  destruct (left_panic raw) as [[[| |]| |]|]; simpl; auto.
Qed.

Lemma collect_loop_replay (handler : S -> step_fn In Out E P S) (input : list In) :
  forall (rest pre : list In) (c : rctx) (s : S) (whole : list In) (result : slice Out)
         (errs : SliceError In E) (seen : list (visit In Out E P)),
    input = pre ++ rest ->
    copy_of input whole c ->
    collect_loop handler input rest (llen pre) c s result errs seen =
      mkCollected (returned (replay handler rest (llen pre) s whole result errs))
        (seen ++ visits (replay handler rest (llen pre) s whole result errs)).
Proof.
  induction rest as [|x rest IH]; intros pre c s whole result errs seen Hin Hcopy.
  - simpl. now rewrite app_nil_r.
  - cbn [collect_loop replay].
    set (c0 := set_currentIndex (llen pre) _).
    assert (Hc0 : clean (llen pre) c0) by (unfold clean; simpl; auto).
    assert (Hcopy0 : copy_of input whole c0) by exact Hcopy.
    assert (Hx : index input (llen pre) = Ok x) by (rewrite Hin; apply index_middle).
    assert (Hnext : input = (pre ++ [x]) ++ rest) by (rewrite <- app_assoc; exact Hin).
    assert (Hlen : llen (pre ++ [x]) = llen pre + 1) by (rewrite llen_app; reflexivity).
    specialize (IH (pre ++ [x])). rewrite Hlen in IH.
    pose proof (@call_left_as In Out E P S input result s (llen pre) x (handler s) c0
                  Hc0 Hx) as Hleft.
    pose proof (@call_resolves input result s (llen pre) x (handler s) Hx c0 whole
                  Hc0 Hcopy0) as Hres.
    cbv zeta in Hres. change (value_set c0) with (@None Out) in Hres.
    set (raw := call input result s (handler s) c0) in *.
    set (en := ending_of input result (handler s) c0) in *.
    destruct (resolve s whole (llen pre) x (resultGetter result) (handler s) None)
      as [[last set] whole'].
    simpl in Hres. destruct Hres as (Hset & Hcopied & Hlast).
    apply recovered_copied in Hcopied.
    destruct Hleft as (Hval & Hclo & Hleft).
    rewrite Hclo. rewrite Hset in *. clear Hset.
    destruct last as [s'| | | | | |s' es|s' es|s' r]; try contradiction;
      destruct Hlast as [Hen Hs']; rewrite Hen in *; rewrite Hs'.
    + destruct Hleft as (Hp & Hst & Hk). rewrite Hp, Hst, Hk.
      rewrite (IH _ _ _ _ _ _ Hnext Hcopied).
      unfold seen_first. simpl. rewrite <- app_assoc. simpl.
      unfold value_set in Hval.
      destruct (hasValue (left_ctx (recovered raw))); rewrite <- Hval; reflexivity.
    + destruct Hleft as (Hp & Hst & Hk & He). rewrite Hp, Hst, Hk, append_if_any, He.
      rewrite (IH _ _ _ _ _ _ Hnext Hcopied).
      unfold seen_first. simpl. rewrite <- app_assoc. simpl.
      reflexivity.
    + destruct Hleft as (Hp & Hst & He). rewrite Hp, Hst, append_if_any, He.
      reflexivity.
    + destruct r as [[| |]|re|u].
      * rewrite Hleft. reflexivity.
      * destruct Hleft as (Hp & Hst & He). rewrite Hp, Hst, append_if_any, He.
        rewrite app_nil_r. reflexivity.
      * destruct Hleft as (Hp & Hst & Hk & He). rewrite Hp, Hst, Hk, append_if_any, He.
        rewrite app_nil_r.
        rewrite (IH _ _ _ _ _ _ Hnext Hcopied).
        unfold seen_first. simpl. rewrite <- app_assoc. simpl.
        reflexivity.
      * rewrite Hleft. reflexivity.
      * rewrite Hleft. reflexivity.
Qed.


End ReplayFacts.


Section TransformFacts.

Variables In Out E P : Type.
Variable zero : Out.

Lemma replay_transform (f : In -> Out) :
  forall (rest : list In) (i : Z) (whole : list In) (result : slice Out)
         (errs : SliceError In E),
    returned (replay (transform_step (P := P) f) rest i tt whole result errs) =
      Ok (extend result (map f rest), as_error errs) /\
    length (visits (replay (transform_step (P := P) f) rest i tt whole result errs)) =
      length rest.
Proof.
  induction rest as [|x rest IH]; intros i whole result errs; simpl.
  - split; reflexivity.
  - destruct (IH (i + 1) whole (append result (f x)) errs) as [Hret Hlen].
    rewrite Hret, Hlen. split; [|reflexivity].
    now rewrite extend_append.
Qed.

(** X9. With a step function that sets the image of every element,
    [Collect] invokes it once per element and returns what [Map] returns,
    the images in order (nil for an empty input), and no error. *)
Theorem Collect_transform (input : slice In) (f : In -> Out) :
  let r := Collect zero input (Some (transform_step (E := E) (P := P) f)) tt in
  exists images,
    Map zero input (Some f) = Ok images /\
    returned r = Ok (images, None) /\
    elems images = map f (elems input) /\
    length (visits r) = length (elems input).
Proof.
  intros r. subst r.
  exists (if len input =? 0 then Nil else Slice (map f (elems input))).
  split; [apply Map_map|].
  unfold Collect. destruct (len input =? 0) eqn:Hlen.
  - apply Z.eqb_eq in Hlen. unfold len in Hlen. apply llen_zero in Hlen.
    rewrite Hlen. repeat split; reflexivity.
  - pose proof (@collect_loop_replay In Out E P unit (transform_step f)
                  (elems input) (elems input) []
                  (mkContext Nil false false [] [] 0 zero false) tt (elems input) Nil [] []
                  eq_refl (or_introl (conj eq_refl eq_refl))) as Hloop.
    change (llen (@nil In)) with 0 in Hloop. rewrite Hloop. simpl.
    destruct (replay_transform f (elems input) 0 (elems input) Nil []) as [Hret Hvis].
    rewrite Hret, Hvis.
    assert (Hne : elems input <> []).
    { intros Hnil. unfold len in Hlen. rewrite Hnil in Hlen. discriminate. }
    destruct (elems input) as [|x l] eqn:He; [contradiction|].
    repeat split; reflexivity.
Qed.

End TransformFacts.

(** ** Filter *)

Section FilterMore.

Variable In : Type.
Variable zero : In.

Lemma Filter_result (input : slice In) (p : In -> bool) :
  Filter zero input (Some p) =
    Ok (if len input =? 0 then input else extend Nil (List.filter p (elems input))).
Proof.
  unfold Filter. destruct (len input =? 0) eqn:Hlen; [reflexivity|].
  unfold Collect. rewrite Hlen.
  pose proof (@filter_loop In p (elems input) (elems input) []
                (mkContext Nil false false [] [] 0 zero false) Nil [] [] eq_refl) as Hloop.
  change (llen (@nil In)) with 0 in Hloop. rewrite Hloop. reflexivity.
Qed.

Lemma filter_twice (p q : In -> bool) (l : list In) :
  List.filter q (List.filter p l) = List.filter (fun x => p x && q x) l.
Proof.
  induction l as [|a l IH]; simpl; [reflexivity|].
  destruct (p a); simpl; [|exact IH].
  destruct (q a); now rewrite IH.
Qed.

Lemma filter_none (p : In -> bool) (l : list In) :
  List.filter p l = [] <-> forall x, List.In x l -> p x = false.
Proof.
  induction l as [|a l IH]; simpl.
  - split; [intros _ x [] | reflexivity].
  - destruct (p a) eqn:Ha.
    + split; [discriminate|]. intros H. rewrite (H a) in Ha; [discriminate | now left].
    + rewrite IH. split.
      * intros H x [<-|Hx]; auto.
      * intros H x Hx. apply H. now right.
Qed.

(** X10. [Filter] never panics. Filtering by [p] and then by [q] keeps the
    elements that pass both, in order. On a non-empty input the result of
    one filtering is nil exactly when no element passes, while an empty
    non-nil input comes back as it is, not nil. *)
Theorem Filter_twice (input : slice In) (p q : In -> bool) :
  exists once twice,
    Filter zero input (Some p) = Ok once /\
    Filter zero once (Some q) = Ok twice /\
    elems twice = List.filter (fun x => p x && q x) (elems input) /\
    (len input <> 0 ->
     (once = Nil <-> forall x, List.In x (elems input) -> p x = false)) /\
    (input = Slice [] -> once = Slice []).
Proof.
  rewrite Filter_result.
  eexists. eexists. split; [reflexivity|].
  rewrite Filter_result. split; [reflexivity|].
  split; [|split].
  - destruct (len input =? 0) eqn:Hlen.
    + apply Z.eqb_eq in Hlen. unfold len in Hlen. apply llen_zero in Hlen.
      destruct input as [|l]; simpl in Hlen; [|subst l]; reflexivity.
    + rewrite <- filter_twice.
      destruct (List.filter p (elems input)) as [|a l]; [reflexivity|].
      change (extend Nil (a :: l)) with (Slice (a :: l)).
      replace (len (Slice (a :: l)) =? 0) with false by reflexivity.
      cbn [elems]. destruct (List.filter q (a :: l)); reflexivity.
  - intros Hne. apply Z.eqb_neq in Hne. rewrite Hne.
    rewrite <- filter_none.
    destruct (List.filter p (elems input)); simpl; split; congruence.
  - intros ->. reflexivity.
Qed.

End FilterMore.

(** ** ForEachChunk during a run *)

Section FollowFacts.

Variables In E S : Type.

Lemma started_hold_tokens (gs : list (goroutine In E)) :
  (length (started_chunks gs) <= total (@holds_token In E) gs)%nat.
Proof.
  induction gs as [|g gs IH]; simpl; [lia|].
  unfold started_chunks in *. destruct g; simpl; lia.
Qed.

Lemma step_sem_bound (handler : option (handler_fn In E S)) (concurrency cap : Z)
    (ch : choice) (m m' : machine In E S) :
  step handler concurrency cap ch m = Some (Ok m') ->
  sem m <= concurrency -> sem m' <= concurrency.
Proof.
  intros Hstep Hle. destruct ch as [|g]; simpl in Hstep.
  - destruct (pending m); [discriminate|].
    destruct (sem m <? concurrency) eqn:Hlt; [|discriminate].
    apply Z.ltb_lt in Hlt. injection Hstep as <-. simpl. lia.
  - destruct (nth_error (goroutines m) g) as [[c|[e|]| |]|]; try discriminate.
    + destruct (call_handler handler (shared m) c) as [[s' err]|]; [|discriminate].
      injection Hstep as <-. exact Hle.
    + destruct (llen (errChan m) <? cap); [|discriminate]. injection Hstep as <-. exact Hle.
    + injection Hstep as <-. exact Hle.
    + destruct (0 <? sem m); [|discriminate]. injection Hstep as <-. simpl. lia.
    + destruct (0 <? wg m); [|discriminate]. injection Hstep as <-. exact Hle.
Qed.

(** Along a schedule the machine stays consistent, [sem] never holds more
    than [concurrency] tokens, and every action uses up one of the actions
    left. *)
Lemma follow_keeps (handler : option (handler_fn In E S)) (concurrency cap : Z)
    (chunks : list (slice In)) :
  forall (sched : list choice) (m m' : machine In E S),
    follow handler concurrency cap sched m = Some m' ->
    consistent chunks m -> sem m <= concurrency ->
    consistent chunks m' /\ sem m' <= concurrency /\
    (length sched + steps_left m' = steps_left m)%nat.
Proof.
  induction sched as [|ch sched IH]; intros m m' Hf Hm Hsem; simpl in Hf.
  - injection Hf as <-. auto.
  - destruct (step handler concurrency cap ch m) as [[m1|r]|] eqn:Hstep; try discriminate.
    destruct (IH m1 m' Hf) as (H1 & H2 & H3).
    + eapply step_consistent; eassumption.
    + eapply step_sem_bound; eassumption.
    + split; [exact H1|]. split; [exact H2|].
      apply step_decreases in Hstep. simpl. lia.
Qed.

(** X11. In the concurrent mode, at every moment of every run, the
    goroutines whose handler call has not returned are at most
    [concurrency], and so are the goroutines that hold a token of [sem]. *)
Theorem ForEachChunk_bounds_handlers (handler : option (handler_fn In E S))
    (concurrency : Z) (chunks : slice (slice In)) (s : S)
    (sched : list choice) (m : machine In E S) :
  1 < concurrency ->
  follow handler concurrency (len chunks) sched (start_of E chunks s) = Some m ->
  llen (started_chunks (goroutines m)) <= concurrency /\
  Z.of_nat (total (@holds_token In E) (goroutines m)) <= concurrency.
Proof.
  intros Hconc Hf.
  destruct (@follow_keeps handler concurrency (len chunks) (elems chunks) sched
              (start_of E chunks s) m Hf
              (initial_consistent E (elems chunks) s)) as (Hm & Hsem & _);
    [simpl; lia|].
  destruct Hm as [_ _ _ Hs]. rewrite Hs in Hsem.
  split; [|exact Hsem].
  pose proof (started_hold_tokens (goroutines m)). unfold llen. lia.
Qed.

(** X12. In the concurrent mode with a handler, a run never crashes and is
    never stuck: after any actions, either [wg.Wait()] is ready to return
    or a further action is enabled. A run takes at most five actions per
    chunk, and exactly that many when it is complete. *)
Theorem ForEachChunk_no_deadlock (f : handler_fn In E S) (concurrency : Z)
    (chunks : slice (slice In)) (s : S) (sched : list choice) :
  1 < concurrency ->
  (forall m,
     follow (Some f) concurrency (len chunks) sched (start_of E chunks s) = Some m ->
     (length sched <= 5 * length (elems chunks))%nat /\
     (forall ch r, step (Some f) concurrency (len chunks) ch m <> Some (Panic r)) /\
     ((exists p, wait_and_return m = Some p) \/
      (exists ch m', step (Some f) concurrency (len chunks) ch m = Some (Ok m')))) /\
  (forall p,
     concurrent (Some f) concurrency (len chunks) sched (start_of E chunks s) = Some p ->
     length sched = (5 * length (elems chunks))%nat).
Proof.
  intros Hconc.
  pose proof (initial_consistent E (elems chunks) s) as Hinit.
  assert (Hsem0 : sem (start_of E chunks s) <= concurrency) by (simpl; lia).
  assert (Hleft0 : steps_left (start_of E chunks s) = (5 * length (elems chunks))%nat)
    by (unfold steps_left; simpl; lia).
  split.
  - intros m Hf.
    destruct (@follow_keeps (Some f) concurrency (len chunks) (elems chunks) sched
                (start_of E chunks s) m Hf Hinit Hsem0) as (Hm & _ & Hsteps).
    split; [lia|]. split.
    + intros ch r. eapply step_no_panic. exact Hm.
    + destruct (wait_and_return m) as [p|] eqn:Hwait; [left; eauto|].
      right. apply (step_enabled f Hm); [lia | exact Hwait].
  - intros p Hrun. rewrite <- Hleft0.
    assert (Hgen : forall sched' m,
               consistent (elems chunks) m ->
               concurrent (Some f) concurrency (len chunks) sched' m = Some p ->
               length sched' = steps_left m).
    { induction sched' as [|ch sched' IH]; intros m Hm Hr; simpl in Hr.
      - destruct Hm as [_ _ Hw _]. unfold wait_and_return in Hr.
        destruct (pending m) eqn:Hp; [|discriminate].
        destruct (wg m =? 0) eqn:Hwg; [|discriminate].
        apply Z.eqb_eq in Hwg. rewrite Hw in Hwg. apply llen_zero in Hwg.
        unfold steps_left. rewrite Hp, Hwg. reflexivity.
      - destruct (step (Some f) concurrency (len chunks) ch m) as [[m1|r]|] eqn:Hstep.
        + pose proof (step_decreases _ _ _ _ _ Hstep) as Hdec.
          rewrite Hdec. simpl. f_equal. apply IH; [|exact Hr].
          eapply step_consistent; eassumption.
        + exfalso. eapply step_no_panic; eassumption.
        + discriminate. }
    apply Hgen; assumption.
Qed.

End FollowFacts.

Lemma ForEachChunk_bounds_handlers_witness :
  exists m,
    follow (Some Samples.fail_at_five) 2 2 [Main; Main; Go 0] (start_of nat (Slice [Slice [5; 6]; Slice [7]]) tt)
      = Some m /\
    llen (started_chunks (goroutines m)) <= 2.
Proof.
  eexists. split; [reflexivity|].
  apply (@ForEachChunk_bounds_handlers Z nat unit (Some Samples.fail_at_five) 2
           (Slice [Slice [5; 6]; Slice [7]]) tt [Main; Main; Go 0]); [lia | reflexivity].
Defined.

Lemma ForEachChunk_no_deadlock_witness :
  length Samples.taking_turns = 10%nat.
Proof.
  apply (proj2 (@ForEachChunk_no_deadlock Z nat unit Samples.fail_at_five 2
                  (Slice [Slice [5; 6]; Slice [7]]) tt Samples.taking_turns
                  ltac:(lia))
           (mkProcessed (Ok (Some 7%nat)) tt
              [(Slice [7], None); (Slice [5; 6], Some 7%nat)] [])).
  reflexivity.
Defined.

(** ** error.go *)

Section MessageFacts.

Variables In E : Type.
Variable message : E -> String.string.

Lemma append_assoc (a b c : String.string) :
  String.append (String.append a b) c = String.append a (String.append b c).
Proof.
  induction a as [|ch a IH]; simpl; [reflexivity|]. now rewrite IH.
Qed.

Lemma append_empty_r (a : String.string) : String.append a String.EmptyString = a.
Proof.
  induction a as [|ch a IH]; simpl; [reflexivity|]. now rewrite IH.
Qed.

Lemma append_empty (a b : String.string) :
  String.append a b = String.EmptyString -> a = String.EmptyString /\ b = String.EmptyString.
Proof.
  destruct a; simpl; [auto | discriminate].
Qed.

Lemma write_loop_app (a b : SliceError In E) (acc : String.string) :
  write_loop message (a ++ b) acc =
  bind (write_loop message a acc) (fun mid => write_loop message b mid).
Proof.
  revert acc. induction a as [|p a IH]; intros acc; simpl; [reflexivity|].
  destruct (ElemError_Error message p) as [m|r]; simpl; [apply IH | reflexivity].
Qed.

Lemma builder_prefix (e : SliceError In E) (b : String.string) :
  write_loop message e b =
  bind (write_loop message e String.EmptyString) (fun m => Ok (String.append b m)).
Proof.
  revert b. induction e as [|p e IH]; intros b; simpl.
  - now rewrite append_empty_r.
  - destruct (ElemError_Error message p) as [m|r]; simpl; [|reflexivity].
    rewrite IH. rewrite (IH (String.append m newline)).
    destruct (write_loop message e String.EmptyString) as [rest|r]; simpl; [|reflexivity].
    now rewrite !append_assoc.
Qed.

Lemma SliceError_Error_loop (e : SliceError In E) :
  SliceError_Error message e = write_loop message e String.EmptyString.
Proof.
  unfold SliceError_Error. destruct e; reflexivity.
Qed.

Lemma write_loop_panics (e : SliceError In E) (b : String.string) :
  (forall r, write_loop message e b = Panic r -> r = NilDereference /\ List.In None e) /\
  (List.In None e -> write_loop message e b = Panic NilDereference).
Proof.
  revert b. induction e as [|p e IH]; intros b; simpl.
  - split; [discriminate | contradiction].
  - destruct p as [x|]; simpl.
    + destruct (IH (String.append
                      (String.append b (match Err x with
                                        | Some err => message err
                                        | None => String.EmptyString
                                        end)) newline)) as [H1 H2].
      split.
      * intros r Hr. destruct (H1 r Hr) as [-> Hin]. auto.
      * intros [Hx|Hin]; [discriminate | exact (H2 Hin)].
    + split; [|reflexivity]. intros r Hr. injection Hr as <-. auto.
Qed.

(** X13. The [Error] method of an aggregate dereferences every element:
    it panics exactly when some element is the nil pointer, and otherwise
    returns the messages of the element errors in order, each followed by
    a newline. So the message of a concatenation is the concatenation of
    the messages, or the panic of the first part that panics; an element
    error without an underlying error contributes a bare newline; and the
    message is empty exactly when the aggregate is. *)
Theorem SliceError_Error_lines (a b : SliceError In E) (x : ElemError In E) :
  SliceError_Error message (a ++ b) =
    bind (SliceError_Error message a) (fun ma =>
    bind (SliceError_Error message b) (fun mb => Ok (String.append ma mb))) /\
  ((exists r, SliceError_Error message a = Panic r) <-> List.In None a) /\
  (forall r, SliceError_Error message a = Panic r -> r = NilDereference) /\
  SliceError_Error message [Some x] =
    Ok (String.append (match Err x with
                       | Some err => message err
                       | None => String.EmptyString
                       end) newline) /\
  (SliceError_Error message a = Ok String.EmptyString <-> a = []).
Proof.
  split; [|split; [|split; [|split]]].
  - rewrite !SliceError_Error_loop, write_loop_app.
    destruct (write_loop message a String.EmptyString) as [ma|r]; simpl; [|reflexivity].
    apply builder_prefix.
  - rewrite SliceError_Error_loop.
    destruct (write_loop_panics a String.EmptyString) as [H1 H2]. split.
    + intros [r Hr]. exact (proj2 (H1 r Hr)).
    + intros Hin. exists NilDereference. exact (H2 Hin).
  - rewrite SliceError_Error_loop. intros r Hr.
    exact (proj1 (proj1 (write_loop_panics a String.EmptyString) r Hr)).
  - reflexivity.
  - split; [|intros ->; reflexivity].
    rewrite SliceError_Error_loop. destruct a as [|p a]; [reflexivity|].
    simpl. destruct (ElemError_Error message p) as [m|r]; simpl; [|discriminate].
    rewrite builder_prefix.
    destruct (write_loop message a String.EmptyString) as [rest|r]; simpl; [|discriminate].
    intros H. injection H as H.
    apply append_empty in H. destruct H as [H _].
    apply append_empty in H. destruct H as [_ H]. discriminate.
Qed.

End MessageFacts.

(** ** The aggregate that Collect returns *)

Section AggregateFacts.

Variables In Out E P S : Type.
Variable zero : Out.

Lemma ascending_app (l1 l2 : list Z) :
  ascending l1 -> ascending l2 ->
  (forall a b, List.In a l1 -> List.In b l2 -> a <= b) ->
  ascending (l1 ++ l2).
Proof.
  induction l1 as [|a l1 IH]; intros H1 H2 Hle; simpl; [exact H2|].
  destruct H1 as [Ha H1]. split.
  - apply Forall_app. split; [exact Ha|].
    apply Forall_forall. intros b Hb. apply Hle; [now left | exact Hb].
  - apply IH; [exact H1 | exact H2|]. intros x y Hx Hy. apply Hle; [now right | exact Hy].
Qed.

Lemma ascending_same (i : Z) (l : list Z) :
  (forall a, List.In a l -> a = i) -> ascending l.
Proof.
  induction l as [|a l IH]; intros H; simpl; [exact I|]. split.
  - apply Forall_forall. intros b Hb.
    rewrite (H a (or_introl eq_refl)), (H b (or_intror Hb)). lia.
  - apply IH. intros b Hb. apply H. now right.
Qed.

Lemma pointees_app (l1 l2 : SliceError In E) :
  pointees (l1 ++ l2) = pointees l1 ++ pointees l2.
Proof.
  unfold pointees. apply flat_map_app.
Qed.

Lemma pointees_wrapped (v : visit In Out E P) :
  pointees (wrapped v) =
  map (fun e => mkElemError (v_index v) (v_elem v) (Some e)) (non_nil (supplied v)).
Proof.
  unfold wrapped. induction (non_nil (supplied v)) as [|e l IH]; simpl; [reflexivity|].
  f_equal. exact IH.
Qed.

Lemma wrapped_fields (v : visit In Out E P) (p : ElemErrorPtr In E) :
  List.In p (wrapped v) ->
  exists x, p = Some x /\
            Index x = v_index v /\ Value x = v_elem v /\ exists e, Err x = Some e.
Proof.
  unfold wrapped. rewrite in_map_iff. intros (e & <- & _).
  eexists. split; [reflexivity|]. simpl. eauto.
Qed.

(** The element errors of a run carry the indices of their invocations,
    in the order of the invocations. *)
Lemma runs_as_indices i rest result errs vs
    (out : go_result (panic_value P) (slice Out * option (SliceError In E))) :
  runs_as i rest result errs vs out ->
  Forall (fun b => i <= b)
    (map (@Index In E) (pointees (flat_map (@wrapped In Out E P) vs))) /\
  ascending (map (@Index In E) (pointees (flat_map (@wrapped In Out E P) vs))).
Proof.
  assert (Hone : forall (v : visit In Out E P) a,
             List.In a (map (@Index In E) (pointees (wrapped v))) -> a = v_index v).
  { intros v a Ha. rewrite pointees_wrapped, map_map in Ha. simpl in Ha.
    apply in_map_iff in Ha. now destruct Ha as (e & <- & _). }
  induction 1 as [| i x rest result errs v vs out Hi Hx Hp Hr [IH1 IH2]
                  | i x rest result errs v Hi Hx Hh
                  | i x rest result errs v r Hi Hx He Hr1 Hr2]; simpl.
  - split; constructor.
  - rewrite pointees_app, map_app. rewrite Forall_forall in IH1. split.
    + apply Forall_app. split; apply Forall_forall; intros a Ha.
      * rewrite (Hone v a Ha). lia.
      * apply IH1 in Ha. lia.
    + apply ascending_app;
        [apply ascending_same with (i := v_index v); apply Hone | exact IH2|].
      intros a b Ha Hb. rewrite (Hone v a Ha). apply IH1 in Hb. lia.
  - rewrite app_nil_r. split.
    + apply Forall_forall. intros a Ha. rewrite (Hone v a Ha). lia.
    + apply ascending_same with (i := v_index v); apply Hone.
  - rewrite app_nil_r. split.
    + apply Forall_forall. intros a Ha. rewrite (Hone v a Ha). lia.
    + apply ascending_same with (i := v_index v); apply Hone.
Qed.

Lemma lookups_in_range (agg : SliceError In E) (i : Z) :
  0 <= i < llen agg ->
  exists p, nth_error agg (Z.to_nat i) = Some p /\
            At agg i = Ok (Some p) /\ OriginAt agg i = Err_of p.
Proof.
  intros Hi. destruct (index_in_range agg Hi) as (p & Hnth & Hidx).
  exists p. split; [exact Hnth|].
  unfold At, OriginAt. rewrite Hidx.
  replace (llen agg =? 0) with false by (symmetry; apply Z.eqb_neq; lia).
  replace ((i <? 0) || (i >=? llen agg)) with false; [split; reflexivity|].
  symmetry. apply orb_false_iff. split; [apply Z.ltb_ge; lia|].
  rewrite Z.geb_leb. apply Z.leb_gt. lia.
Qed.

(** X14. In the aggregate that [Collect] returns no element is the nil
    pointer: every place [i] holds an element error whose underlying error
    is not nil, which [OriginAt] and the element's [Unwrap] give back, and
    whose index and value are a position of the input and the element
    there; the indices never go down along the aggregate. *)
Theorem Collect_aggregate_elements (input : slice In) (handler : S -> step_fn In Out E P S)
    (s : S) (res : slice Out) (agg : SliceError In E) :
  returned (Collect zero input (Some handler) s) = Ok (res, Some agg) ->
  agg <> [] /\
  no_nil_element agg /\
  (forall i, 0 <= i < llen agg ->
     exists x e,
       At agg i = Ok (Some (Some x)) /\ OriginAt agg i = Ok (Some e) /\
       ElemError_Unwrap (Some x) = Ok (Some e) /\
       index (elems input) (Index x) = Ok (Value x)) /\
  ascending (map (@Index In E) (pointees agg)).
Proof.
  intros Hout.
  pose proof (Collect_runs_as zero input handler s) as Hrun.
  destruct (runs_as_ok Hrun Hout) as [_ Hagg]. simpl in Hagg.
  set (vs := visits (Collect zero input (Some handler) s)) in *.
  assert (Heq : agg = flat_map (@wrapped In Out E P) vs /\ agg <> []).
  { unfold as_error in Hagg.
    destruct (flat_map (@wrapped In Out E P) vs) as [|a l]; simpl in Hagg; [discriminate|].
    injection Hagg as ->. split; [reflexivity | discriminate]. }
  destruct Heq as [Heq Hne]. split; [exact Hne|].
  assert (Helem : forall p, List.In p agg ->
            exists v x, List.In v vs /\ p = Some x /\
                        Index x = v_index v /\ Value x = v_elem v /\
                        exists e, Err x = Some e).
  { intros p Hin. rewrite Heq in Hin. apply in_flat_map in Hin.
    destruct Hin as (v & Hv & Hp).
    destruct (wrapped_fields v p Hp) as (x & Hx & Hfields). eauto. }
  split; [|split].
  - apply Forall_forall. intros p Hin.
    destruct (Helem p Hin) as (v & x & _ & -> & _). discriminate.
  - intros i Hi. destruct (lookups_in_range agg Hi) as (p & Hnth & Hat & Horigin).
    destruct (Helem p (nth_error_In _ _ Hnth)) as (v & x & Hv & -> & Hidx & Hval & e & He).
    exists x, e. split; [exact Hat|].
    split; [rewrite Horigin; simpl; now rewrite He|].
    split; [unfold ElemError_Unwrap; simpl; now rewrite He|].
    apply In_nth_error in Hv. destruct Hv as [j Hj].
    destruct (runs_as_nth Hrun j Hj) as [Hvi Hve].
    rewrite Hidx, Hval, Hvi. simpl.
    assert (Hj' : 0 <= Z.of_nat j < llen (elems input)).
    { unfold llen. split; [lia|]. apply Nat2Z.inj_lt. apply nth_error_Some. congruence. }
    destruct (index_in_range (elems input) Hj') as (y & Hy & Hok).
    rewrite Nat2Z.id in Hy. rewrite Hok. congruence.
  - rewrite Heq. apply (runs_as_indices Hrun).
Qed.

End AggregateFacts.

Lemma Collect_aggregate_elements_witness :
  ascending (map (@Index Z nat)
               (pointees [newElemError 1 2 (Some 1%nat); newElemError 3 4 (Some 2%nat)])).
Proof.
  assert (Hret : returned (Collect (P := nat) 0 (Slice [1; 2; 3; 4])
                             (Some Samples.skip_two_and_four) tt) =
                 Ok (Slice [1; 3],
                     Some [newElemError 1 2 (Some 1%nat); newElemError 3 4 (Some 2%nat)]))
    by (vm_compute; reflexivity).
  apply (@Collect_aggregate_elements Z Z nat nat unit 0 (Slice [1; 2; 3; 4])
           Samples.skip_two_and_four tt (Slice [1; 3])
           [newElemError 1 2 (Some 1%nat); newElemError 3 4 (Some 2%nat)] Hret).
Defined.

(** ** ForEachChunk and the input *)

Section CoverFacts.

Variables In E S : Type.

Lemma Chunk_concat (input : slice In) (size : Z) (chunks : slice (slice In)) :
  Chunk input size = Ok chunks ->
  flat_map (@elems In) (elems chunks) = elems input.
Proof.
  intros Hc. destruct input as [|l]; simpl in Hc.
  - injection Hc as <-. reflexivity.
  - destruct (llen l =? 0) eqn:Hlen.
    + injection Hc as <-. apply Z.eqb_eq, llen_zero in Hlen. now rewrite Hlen.
    + destruct (make_cap _) as [made|r] eqn:Hmade; simpl in Hc; [|discriminate].
      injection Hc as <-.
      assert (Hm : elems made = []).
      { unfold make_cap in Hmade. destruct (_ <? 0); [discriminate|].
        injection Hmade as <-. reflexivity. }
      rewrite Hm.
      destruct (chunk_loop_shape (Z.to_pos (if size <=? 0 then 1 else size)) l [])
        as (body & last & Heq & _ & _ & _ & Hcat).
      simpl. rewrite Heq. simpl. rewrite flat_map_app. simpl.
      rewrite app_nil_r, flat_map_concat_map. exact Hcat.
Qed.

Lemma handled_chunks (done : list (slice In * error E)) :
  handled done = flat_map (@elems In) (map fst done).
Proof.
  unfold handled. induction done as [|c done IH]; simpl; [reflexivity|]. now rewrite IH.
Qed.

(** X15. When [ForEachChunk] returns nil in the sequential mode, the
    chunks given to the handler, put end to end in call order, are the
    input. When it returns in the concurrent mode, with an error or not,
    the elements given to the handler are the elements of the input, each
    once, in some order. *)
Theorem ForEachChunk_covers_input (sched : list choice) (input : slice In)
    (chunkSize concurrency : Z) (handler : handler_fn In E S) (s : S)
    (p : processed In E S) (e : error E) :
  ForEachChunk sched input chunkSize concurrency (Some handler) s = Some p ->
  outcome p = Ok e ->
  (concurrency <= 1 -> e = None -> handled (calls p) = elems input) /\
  (1 < concurrency -> Permutation (handled (calls p)) (elems input)).
Proof.
  intros Hrun Hout. unfold ForEachChunk in Hrun.
  destruct (len input =? 0) eqn:Hlen.
  - apply Z.eqb_eq in Hlen. unfold len in Hlen. apply llen_zero in Hlen.
    injection Hrun as <-. simpl. rewrite Hlen. split; intros; [reflexivity | constructor].
  - destruct (Chunk input chunkSize) as [chunks|r] eqn:Hchunk.
    2:{ injection Hrun as <-. discriminate. }
    pose proof (Chunk_concat _ _ Hchunk) as Hcat.
    destruct (concurrency <=? 1) eqn:Hconc.
    + apply Z.leb_le in Hconc. split; [|lia]. intros _ ->.
      injection Hrun as <-.
      destruct (sequential_calls (Some handler) (elems chunks) s [])
        as (_ & new & Hcalls & _ & _ & Hnone & _).
      simpl in Hcalls. destruct (Hnone Hout) as [Hfst _].
      rewrite handled_chunks, Hcalls, Hfst. exact Hcat.
    + apply Z.leb_gt in Hconc. split; [lia|]. intros _.
      pose proof (initial_consistent E (elems chunks) s) as Hinit.
      destruct (run_final (Some handler) concurrency (len chunks) sched Hinit Hrun Hout)
        as (Hperm & _).
      rewrite handled_chunks, <- Hcat. symmetry.
      apply Permutation_flat_map. exact Hperm.
Qed.

End CoverFacts.

Lemma ForEachChunk_covers_input_witness :
  Permutation [7; 5; 6] [5; 6; 7] /\
  handled (E := nat) [(Slice [1; 2], None); (Slice [3], None)] = [1; 2; 3].
Proof.
  split.
  - apply (@ForEachChunk_covers_input Z nat unit Samples.taking_turns (Slice [5; 6; 7]) 2 2
             Samples.fail_at_five tt
             (mkProcessed (Ok (Some 7%nat)) tt
                [(Slice [7], None); (Slice [5; 6], Some 7%nat)] [])
             (Some 7%nat) eq_refl eq_refl).
    lia.
  - apply (@ForEachChunk_covers_input Z nat unit [] (Slice [1; 2; 3]) 2 1
             (fun s _ => (s, None)) tt
             (mkProcessed (Ok None) tt [(Slice [1; 2], None); (Slice [3], None)] [])
             None eq_refl eq_refl); [lia | reflexivity].
Defined.

(** ** record.go *)

Section RecordFacts.

Import record.

Variable K : Type.
Variable eqb : K -> K -> bool.
Hypothesis eqb_eq : forall a b, eqb a b = true <-> a = b.

Lemma eqb_same (k : K) : eqb k k = true.
Proof. now apply eqb_eq. Qed.

Lemma eqb_other (a b : K) : a <> b -> eqb a b = false.
Proof.
  intros Hne. destruct (eqb a b) eqn:H; [|reflexivity]. apply eqb_eq in H. contradiction.
Qed.

Section Entries.

Variable V : Type.
Implicit Types (l es : list (K * V)) (k : K) (v : V).

Lemma find_entry_key k l :
  (exists v, find_entry eqb k l = Some v) <-> List.In k (map fst l).
Proof.
  induction l as [|[k' v'] l IH]; simpl.
  - split; [intros [v H]; discriminate | intros []].
  - destruct (eqb k' k) eqn:He.
    + apply eqb_eq in He. split; eauto.
    + rewrite IH. split; [auto|]. intros [H|H]; [|exact H].
      subst k'. rewrite eqb_same in He. discriminate.
Qed.

Lemma find_entry_none k l :
  find_entry eqb k l = None <-> ~ List.In k (map fst l).
Proof.
  rewrite <- find_entry_key. destruct (find_entry eqb k l) as [v|].
  - split; [discriminate|]. intros H. exfalso. eauto.
  - split; [|reflexivity]. intros _ [v H]. discriminate.
Qed.

(** With distinct keys, an entry is found exactly when it is there. *)
Lemma find_entry_in k v l :
  NoDup (map fst l) -> (find_entry eqb k l = Some v <-> List.In (k, v) l).
Proof.
  induction l as [|[k' v'] l IH]; simpl; intros Hnd.
  - split; [discriminate | intros []].
  - inversion Hnd as [|? ? Hnotin Hnd']; subst.
    destruct (eqb k' k) eqn:He.
    + apply eqb_eq in He. subst k'. split.
      * intros H. injection H as ->. now left.
      * intros [H|H]; [congruence|]. exfalso. apply Hnotin.
        apply in_map_iff. exists (k, v). auto.
    + rewrite (IH Hnd'). split; [auto|]. intros [H|H]; [|exact H].
      injection H as -> ->. rewrite eqb_same in He. discriminate.
Qed.

Lemma find_entry_rev k l :
  NoDup (map fst l) -> find_entry eqb k (rev l) = find_entry eqb k l.
Proof.
  intros Hnd.
  assert (Hnd' : NoDup (map fst (rev l))) by (rewrite map_rev; now apply NoDup_rev).
  destruct (find_entry eqb k l) as [v|] eqn:Hf.
  - apply find_entry_in; [exact Hnd'|]. apply in_rev. rewrite rev_involutive.
    apply find_entry_in; assumption.
  - apply find_entry_none. apply find_entry_none in Hf.
    rewrite map_rev, <- in_rev. exact Hf.
Qed.

Lemma find_entry_app k l1 l2 :
  find_entry eqb k (l1 ++ l2) =
  match find_entry eqb k l1 with
  | Some v => Some v
  | None => find_entry eqb k l2
  end.
Proof.
  induction l1 as [|[k' v'] l1 IH]; simpl; [reflexivity|].
  destruct (eqb k' k); [reflexivity | exact IH].
Qed.

Lemma find_store k k' v l :
  find_entry eqb k' (store eqb k v l) =
  if eqb k k' then Some v else find_entry eqb k' l.
Proof.
  induction l as [|[k0 v0] l IH]; simpl.
  - reflexivity.
  - destruct (eqb k0 k) eqn:H0; simpl.
    + apply eqb_eq in H0. subst k0. destruct (eqb k k'); reflexivity.
    + rewrite IH. destruct (eqb k0 k') eqn:H1; [|reflexivity].
      apply eqb_eq in H1. subst k0. now rewrite eqb_other by (intros ->; now rewrite eqb_same in H0).
Qed.

Lemma keys_store k v l :
  map fst (store eqb k v l) =
  match find_entry eqb k l with
  | Some _ => map fst l
  | None => map fst l ++ [k]
  end.
Proof.
  induction l as [|[k0 v0] l IH]; simpl; [reflexivity|].
  destruct (eqb k0 k) eqn:H0; simpl; [reflexivity|].
  rewrite IH. destruct (find_entry eqb k l); reflexivity.
Qed.

Lemma distinct_store k v l :
  NoDup (map fst l) -> NoDup (map fst (store eqb k v l)).
Proof.
  intros Hnd. rewrite keys_store.
  destruct (find_entry eqb k l) eqn:Hf; [exact Hnd|].
  apply find_entry_none in Hf.
  apply NoDup_app; [exact Hnd | repeat constructor; intros [] |].
  intros x Hx [<-|[]]. contradiction.
Qed.

(** Storing entries one after the other: a key ends up with the value of
    the last entry that has it, or keeps its old value. *)
Lemma find_store_all k es :
  forall l,
    find_entry eqb k (store_all eqb es l) =
    match find_entry eqb k (rev es) with
    | Some v => Some v
    | None => find_entry eqb k l
    end.
Proof.
  induction es as [|[k1 v1] es IH]; intros l; simpl.
  - reflexivity.
  - unfold store_all in *. simpl. rewrite IH, find_entry_app, find_store. simpl.
    destruct (find_entry eqb k (rev es)); [reflexivity|].
    destruct (eqb k1 k); reflexivity.
Qed.

Lemma distinct_store_all es :
  forall l, NoDup (map fst l) -> NoDup (map fst (store_all eqb es l)).
Proof.
  induction es as [|[k1 v1] es IH]; intros l Hnd; simpl; [exact Hnd|].
  apply IH, distinct_store, Hnd.
Qed.

End Entries.

Section MapClaims.

Variable V : Type.
Implicit Types (m : gomap K V) (es l : list (K * V)) (k : K).

Lemma keys_store_all_fresh es :
  forall l,
    NoDup (map fst l ++ map fst es) ->
    map fst (store_all eqb es l) = map fst l ++ map fst es.
Proof.
  induction es as [|[k1 v1] es IH]; intros l Hnd; simpl.
  - now rewrite app_nil_r.
  - unfold store_all in *. simpl.
    assert (Hfresh : find_entry eqb k1 l = None).
    { apply find_entry_none. intros Hin.
      apply NoDup_remove_2 in Hnd. apply Hnd. apply in_or_app. now left. }
    assert (Hkeys : map fst (store eqb k1 v1 l) = map fst l ++ [k1])
      by (rewrite keys_store, Hfresh; reflexivity).
    rewrite IH; rewrite Hkeys, <- app_assoc; [reflexivity | exact Hnd].
Qed.

(** X16. [Clone] returns nil for nil and otherwise a non-nil map with the
    same number of entries, in which every key has the value it has in the
    original. *)
Theorem record_Clone_same m :
  distinct_keys m ->
  (Clone eqb m = NilMap <-> m = NilMap) /\
  (forall k, lookup eqb (Clone eqb m) k = lookup eqb m k) /\
  distinct_keys (Clone eqb m) /\
  length (entries (Clone eqb m)) = length (entries m).
Proof.
  intros Hnd. destruct m as [|es]; simpl.
  - repeat split; reflexivity || constructor.
  - unfold distinct_keys in *. simpl in *. split; [split; discriminate|]. split; [|split].
    + intros k. unfold lookup. simpl. rewrite find_store_all. simpl.
      rewrite find_entry_rev by exact Hnd. destruct (find_entry eqb k es); reflexivity.
    + apply distinct_store_all. constructor.
    + rewrite <- (length_map fst), keys_store_all_fresh by exact Hnd.
      simpl. apply length_map.
Qed.

Lemma find_merge k (maps : list (gomap K V)) :
  Forall (@distinct_keys K V) maps ->
  forall l,
    find_entry eqb k (fold_left (fun result m => store_all eqb (entries m) result) maps l) =
    fold_left (fun found m => match lookup eqb m k with Some v => Some v | None => found end)
      maps (find_entry eqb k l).
Proof.
  induction 1 as [|m maps Hm _ IH]; intros l; simpl; [reflexivity|].
  rewrite IH, find_store_all. unfold lookup.
  rewrite find_entry_rev by exact Hm. reflexivity.
Qed.

(** X17. [Merge] never returns nil, also for no maps at all or nil maps.
    In its result a key has the value of the last map that has the key,
    and no value if none has it. *)
Theorem record_Merge_later_wins (maps : list (gomap K V)) :
  Forall (@distinct_keys K V) maps ->
  Merge eqb maps <> NilMap /\
  (forall k, lookup eqb (Merge eqb maps) k = later_wins eqb maps k) /\
  distinct_keys (Merge eqb maps).
Proof.
  intros Hall. split; [discriminate|]. split.
  - intros k. unfold lookup, Merge, later_wins. simpl.
    now rewrite find_merge.
  - unfold distinct_keys, Merge. simpl.
    assert (Hgen : forall l, NoDup (map fst l) ->
              NoDup (map fst (fold_left
                 (fun result m => store_all eqb (entries m) result) maps l))).
    { clear Hall. induction maps as [|m ms IH]; intros l Hl; simpl; [exact Hl|].
      apply IH, distinct_store_all, Hl. }
    apply Hgen. constructor.
Qed.

Lemma filter_loop_stores (p : K -> V -> bool) es :
  forall l, record.filter_loop eqb (Some p) es l =
            Ok (store_all eqb (List.filter (record.passes p) es) l).
Proof.
  induction es as [|[k v] es IH]; intros l; simpl; [reflexivity|].
  rewrite IH. unfold record.passes at 2. simpl. destruct (p k v); reflexivity.
Qed.

Lemma keys_filter (q : K * V -> bool) es k :
  List.In k (map fst (List.filter q es)) -> List.In k (map fst es).
Proof.
  rewrite !in_map_iff. intros (kv & Hk & Hin). apply filter_In in Hin.
  exists kv. tauto.
Qed.

Lemma distinct_filter (q : K * V -> bool) es :
  NoDup (map fst es) -> NoDup (map fst (List.filter q es)).
Proof.
  induction es as [|kv es IH]; simpl; intros Hnd; [constructor|].
  inversion Hnd as [|? ? Hnotin Hnd']; subst.
  destruct (q kv); simpl; [|now apply IH].
  constructor; [|now apply IH]. intros Hin. apply Hnotin. eapply keys_filter, Hin.
Qed.

Lemma find_filter (p : K -> V -> bool) es k :
  NoDup (map fst es) ->
  find_entry eqb k (List.filter (record.passes p) es) =
  match find_entry eqb k es with
  | Some v => if p k v then Some v else None
  | None => None
  end.
Proof.
  induction es as [|[k0 v0] es IH]; simpl; intros Hnd; [reflexivity|].
  inversion Hnd as [|? ? Hnotin Hnd']; subst.
  destruct (eqb k0 k) eqn:He.
  - apply eqb_eq in He. subst k0. unfold record.passes at 1. simpl.
    destruct (p k v0); simpl; [now rewrite eqb_same|].
    apply find_entry_none. intros Hin. apply Hnotin. eapply keys_filter, Hin.
  - unfold record.passes at 1. simpl. destruct (p k0 v0); simpl; [rewrite He|]; now apply IH.
Qed.

(** X18. [Filter] returns nil for nil and otherwise a non-nil map in which
    a key has its value from the original when the predicate holds of the
    pair, and no value otherwise. Its predicate is not checked: a nil
    predicate panics as soon as the map has an entry, and is harmless on a
    nil or empty map. *)
Theorem record_Filter_keeps m (p : K -> V -> bool) :
  distinct_keys m ->
  (exists r,
     record.Filter eqb m (Some p) = Ok r /\
     (r = NilMap <-> m = NilMap) /\
     distinct_keys r /\
     forall k, lookup eqb r k =
               match lookup eqb m k with
               | Some v => if p k v then Some v else None
               | None => None
               end) /\
  (record.Filter eqb m None = Panic NilFuncCall <-> entries m <> []) /\
  (entries m = [] -> record.Filter eqb m None = Ok m).
Proof.
  intros Hnd. split; [|split].
  - destruct m as [|es]; simpl.
    + exists NilMap. repeat split; reflexivity || constructor.
    + rewrite filter_loop_stores. simpl.
      exists (MapOf (store_all eqb (List.filter (record.passes p) es) [])).
      split; [reflexivity|]. split; [split; discriminate|]. split.
      * apply distinct_store_all. constructor.
      * intros k. unfold lookup. simpl. rewrite find_store_all. simpl.
        rewrite find_entry_rev by (apply distinct_filter, Hnd).
        rewrite find_filter by exact Hnd.
        destruct (find_entry eqb k es) as [v|]; [destruct (p k v)|]; reflexivity.
  - destruct m as [|[|[k v] es]]; simpl; split; congruence.
  - destruct m as [|es]; simpl; [reflexivity|]. intros ->. reflexivity.
Qed.

End MapClaims.

Section TransformClaims.

Variables InV OutV T : Type.

Lemma map_values_loop_stores (f : InV -> OutV) (es : list (K * InV)) :
  forall l, map_values_loop eqb (Some f) es l =
            Ok (store_all eqb (map (fun kv => (fst kv, f (snd kv))) es) l).
Proof.
  induction es as [|[k v] es IH]; intros l; simpl; [reflexivity|]. now rewrite IH.
Qed.

Lemma find_mapped (f : InV -> OutV) (es : list (K * InV)) (k : K) :
  find_entry eqb k (map (fun kv => (fst kv, f (snd kv))) es) =
  option_map f (find_entry eqb k es).
Proof.
  induction es as [|[k0 v0] es IH]; simpl; [reflexivity|].
  destruct (eqb k0 k); [reflexivity | exact IH].
Qed.

(** X19. [MapValues] returns nil for nil and otherwise a non-nil map with
    the same keys, each with the image of its value. Its mapper is not
    checked: a nil mapper panics as soon as the map has an entry. *)
Theorem record_MapValues_images (m : gomap K InV) (f : InV -> OutV) :
  distinct_keys m ->
  (exists r,
     MapValues eqb m (Some f) = Ok r /\
     (r = NilMap <-> m = NilMap) /\
     distinct_keys r /\
     forall k, lookup eqb r k = option_map f (lookup eqb m k)) /\
  (MapValues eqb m (@None (InV -> OutV)) = Panic NilFuncCall <-> entries m <> []).
Proof.
  intros Hnd. split.
  - destruct m as [|es]; simpl.
    + exists NilMap. repeat split; reflexivity || constructor.
    + rewrite map_values_loop_stores. simpl.
      eexists. split; [reflexivity|]. split; [split; discriminate|]. split.
      * apply distinct_store_all; constructor.
      * intros k. unfold lookup. simpl. rewrite find_store_all. simpl.
        assert (Hkeys : map fst (map (fun kv : K * InV => (fst kv, f (snd kv))) es) =
                        map fst es) by (rewrite map_map; reflexivity).
        rewrite find_entry_rev by (rewrite Hkeys; exact Hnd).
        rewrite find_mapped. destruct (find_entry eqb k es); reflexivity.
  - destruct m as [|[|[k v] es]]; simpl; split; congruence.
Qed.



End TransformClaims.

Section SetClaims.


End SetClaims.

Section ListingClaims.

Variable V : Type.

Lemma appended_images (A B : Type) (f : A -> B) (l : list A) :
  forall acc, fold_left (fun out x => out ++ [f x]) l acc = acc ++ map f l.
Proof.
  induction l as [|x l IH]; intros acc; simpl.
  - now rewrite app_nil_r.
  - rewrite IH, <- app_assoc. reflexivity.
Qed.

(** X22. [Keys] never returns nil, also for a nil map. Its result has one
    element for each entry of the map, holds no key twice, and holds a key
    exactly when the map has a value for it. *)
Theorem record_Keys_listed (m : gomap K V) :
  distinct_keys m ->
  Keys m <> Nil /\
  length (elems (Keys m)) = length (entries m) /\
  NoDup (elems (Keys m)) /\
  (forall k, List.In k (elems (Keys m)) <-> exists v, lookup eqb m k = Some v).
Proof.
  intros Hnd. unfold Keys. rewrite appended_images. simpl.
  split; [discriminate|]. split; [apply length_map|]. split; [exact Hnd|].
  intros k. unfold lookup. now rewrite find_entry_key.
Qed.

(** X23. [Values] never returns nil, also for a nil map. Its result has
    one element for each entry of the map, and holds a value exactly when
    some key of the map has it. *)
Theorem record_Values_listed (m : gomap K V) :
  distinct_keys m ->
  Values m <> Nil /\
  length (elems (Values m)) = length (entries m) /\
  (forall v, List.In v (elems (Values m)) <-> exists k, lookup eqb m k = Some v).
Proof.
  intros Hnd. unfold Values. rewrite appended_images. simpl.
  split; [discriminate|]. split; [apply length_map|].
  intros v. unfold lookup. rewrite in_map_iff. split.
  - intros [[k v'] [Hv Hin]]. simpl in Hv. subst v'. exists k.
    now apply find_entry_in.
  - intros [k Hk]. exists (k, v). split; [reflexivity|]. now apply find_entry_in.
Qed.

End ListingClaims.

End RecordFacts.

Lemma record_Clone_same_witness :
  let m := MapOf [(1, 10); (2, 20)] in
  record.distinct_keys m /\
  forall k, record.lookup Z.eqb (record.Clone Z.eqb m) k = record.lookup Z.eqb m k.
Proof.
  intros m.
  assert (Hnd : record.distinct_keys m).
  { unfold record.distinct_keys. simpl. repeat constructor; simpl; intuition lia. }
  split; [exact Hnd|].
  exact (proj1 (proj2 (@record_Clone_same Z Z.eqb Z.eqb_eq Z m Hnd))).
Defined.

Lemma record_Merge_later_wins_witness :
  let maps := [MapOf [(1, 10); (2, 20)]; NilMap; MapOf [(2, 21); (3, 30)]] in
  Forall (@record.distinct_keys Z Z) maps /\
  record.lookup Z.eqb (record.Merge Z.eqb maps) 2 = Some 21.
Proof.
  intros maps.
  assert (Hnd : Forall (@record.distinct_keys Z Z) maps).
  { repeat constructor; simpl; intuition lia. }
  split; [exact Hnd|].
  exact (proj1 (proj2 (@record_Merge_later_wins Z Z.eqb Z.eqb_eq Z maps Hnd)) 2).
Defined.

Lemma record_Filter_keeps_witness :
  let m := MapOf [(1, 10); (2, 25); (3, 30)] in
  record.distinct_keys m /\
  (record.Filter Z.eqb m (@None (Z -> Z -> bool)) = Panic NilFuncCall <->
   record.entries m <> []).
Proof.
  intros m.
  assert (Hnd : record.distinct_keys m).
  { unfold record.distinct_keys. simpl. repeat constructor; simpl; intuition lia. }
  split; [exact Hnd|].
  exact (proj1 (proj2 (@record_Filter_keeps Z Z.eqb Z.eqb_eq Z m (fun _ v => 20 <? v) Hnd))).
Defined.

Lemma record_MapValues_images_witness :
  let m := MapOf [(1, 10); (2, 20)] in
  record.distinct_keys m /\
  (record.MapValues Z.eqb m (@None (Z -> Z)) = Panic NilFuncCall <->
   record.entries m <> []).
Proof.
  intros m.
  assert (Hnd : record.distinct_keys m).
  { unfold record.distinct_keys. simpl. repeat constructor; simpl; intuition lia. }
  split; [exact Hnd|].
  exact (proj2 (@record_MapValues_images Z Z.eqb Z.eqb_eq Z Z m (fun v => v + 1) Hnd)).
Defined.



Lemma record_Keys_listed_witness :
  let m := MapOf [(2, 20); (1, 10)] in
  record.distinct_keys m /\ NoDup (elems (record.Keys m)).
Proof.
  intros m.
  assert (Hnd : record.distinct_keys m).
  { unfold record.distinct_keys. simpl. repeat constructor; simpl; intuition lia. }
  split; [exact Hnd|].
  exact (proj1 (proj2 (proj2 (@record_Keys_listed Z Z.eqb Z.eqb_eq Z m Hnd)))).
Defined.

Lemma record_Values_listed_witness :
  let m := MapOf [(2, 20); (1, 10)] in
  record.distinct_keys m /\
  length (elems (record.Values m)) = length (record.entries m).
Proof.
  intros m.
  assert (Hnd : record.distinct_keys m).
  { unfold record.distinct_keys. simpl. repeat constructor; simpl; intuition lia. }
  split; [exact Hnd|].
  exact (proj1 (proj2 (@record_Values_listed Z Z.eqb Z.eqb_eq Z m Hnd))).
Defined.
